(** * Cards-against-net: the game view (client) and the socket dispatcher (server)

    A shallow embedding of [src/www/src/views/Game.jsx].  The file holds two
    programs: the React view of a running game (lines 1-413) and the
    socket.io dispatcher that turns inbound commands into calls on a game
    object and outbound broadcasts (lines 414-510).

    The game class ([addPlayer], [removePlayer], [playWhiteCards], ...) and
    the store [db] are called by the dispatcher but are not part of the
    file; the dispatcher is embedded over an interface [GameClass.Ops], and
    a model of that interface written from the specification is used where
    a concrete run is needed. *)

From stdpp Require Import gmap strings list.
From Stdlib Require Import ZArith Sorted.

Open Scope string_scope.
Open Scope list_scope.
Open Scope nat_scope.

(** ** Values on the wire

    The payload of a socket message is a JavaScript value.  The handlers
    only ever look at a string, at an array of card texts, or at an object
    whose fields are such values, so that is what is modelled. *)

Inductive Val :=
| VUndefined
| VNull
| VStr (s : string)
| VCards (cs : list string).

Inductive Data :=
| DVal (v : Val)
| DObj (fields : list (string * Val)).

(** ** The game state, as the view reads it *)

Record BlackCard := mkBlackCard {
  black_text : string;
  black_pick : nat
}.

Record WhiteCard := mkWhiteCard {
  wc_player : string;
  wc_card : string;
  wc_hidden : bool
}.

Record Player := mkPlayer {
  player_id : string;
  player_name : string;
  player_points : nat;
  player_cards : list string
}.

(** A round object.  The type of its [winner] field is a parameter: the
    round being played has none ([unit]), a finished round stores the
    winner's id ([string]), and the view's [getLastFinishedRound] stores a
    player object or [undefined] ([option Player]). *)
Record RoundOf (W : Type) := mkRound {
  round_host : option string;
  round_blackCard : BlackCard;
  round_whiteCards : list WhiteCard;
  round_winner : W
}.
Arguments mkRound {W} _ _ _ _.
Arguments round_host {W} _.
Arguments round_blackCard {W} _.
Arguments round_whiteCards {W} _.
Arguments round_winner {W} _.

Abbreviation OpenRound := (RoundOf unit).
Abbreviation FinishedRound := (RoundOf string).
Abbreviation ResolvedRound := (RoundOf (option Player)).

(** The card supply of one game (the game class keeps it; the view never
    reads it). *)
Record Deck := mkDeck {
  deck_prompts : list BlackCard;
  deck_usedPrompts : list BlackCard;
  deck_responses : list string;
  deck_discard : list string
}.

Record Game := mkGame {
  game_id : string;
  game_players : list Player;
  game_round : OpenRound;
  game_finishedRounds : list FinishedRound;
  game_finished : bool;
  game_deck : Deck
}.

(** ** The view: [getLastFinishedRound] (lines 13-21) *)

(** [arr[i]] for a JavaScript number [i]: a negative index is a missing
    property, that is, [undefined]. *)
Definition js_index {A} (l : list A) (i : Z) : option A :=
  if (i <? 0)%Z then None else l !! Z.to_nat i.

(** [{ ...round, winner }] *)
Definition spread_winner {W V} (round : RoundOf W) (winner : V) : RoundOf V :=
  mkRound (round_host round) (round_blackCard round) (round_whiteCards round) winner.

(** [!round] holds of [undefined] only: a round object is truthy. *)
Definition getLastFinishedRound (game : Game) : option ResolvedRound :=
  let round := js_index (game_finishedRounds game)
                 (Z.of_nat (length (game_finishedRounds game)) - 1) in
  match round with
  | None => None
  | Some round =>
      let winner :=
        List.find (fun p => String.eqb (player_id p) (round_winner round))
                  (game_players game) in
      Some (spread_winner round winner)
  end.

(** ** The view: the [Game] component (lines 23-151)

    What the component reads: the connection's socket id ([playerId]), the
    game of the last state broadcast, and the locally chosen [winner]. *)

Record View := mkView {
  view_playerId : string;
  view_game : Game;
  view_winner : option string
}.

Section GameView.
Variable v : View.

Let game := view_game v.
Let playerId := view_playerId v.

Definition playerData : option Player :=
  List.find (fun p => String.eqb (player_id p) playerId) (game_players game).

(** [game?.round.blackCard?.pick || 1]: zero is falsy. *)
Definition cardsToPick : nat :=
  match black_pick (round_blackCard (game_round game)) with
  | O => 1
  | n => n
  end.

Definition playerIsHost : bool :=
  bool_decide (Some playerId = round_host (game_round game)).

Definition submitted (id : string) : bool :=
  existsb (fun c => String.eqb (wc_player c) id)
          (round_whiteCards (game_round game)).

Definition roundPlayed : bool := submitted playerId.

Definition playersReady : nat :=
  length (filter (fun p => submitted (player_id p) = true) (game_players game)).

(** [playersReady === game?.players.length - 1], on JavaScript numbers. *)
Definition allCardsSent : bool :=
  (Z.of_nat playersReady =? Z.of_nat (length (game_players game)) - 1)%Z.

Definition showHand : bool := negb playerIsHost && negb roundPlayed.

Definition showCardCounter : bool :=
  negb allCardsSent && (playerIsHost || roundPlayed).

(** *** Messages the view sends (each is one [socket.emit]) *)

Definition playCards (cards : list string) : string * Data :=
  ("game:play-white-cards",
   DObj [("gameId", VStr (game_id game)); ("cards", VCards cards)]).

Definition discardWhiteCards (card : string) : string * Data :=
  ("game:discard-white-card",
   DObj [("gameId", VStr (game_id game)); ("card", VStr card)]).

Definition finishRound : string * Data :=
  ("game:finish-round",
   DObj [("gameId", VStr (game_id game));
         ("winnerPlayerId",
          match view_winner v with Some w => VStr w | None => VNull end)]).

Definition closeGameOverModal : string * Data :=
  ("game:leave", DVal (VStr (game_id game))).

(** What a click on a card of the round does: nothing for a player who is
    not the host; for the host, a reveal request for a hidden card and a
    local choice of winner for a revealed one. *)
Inductive ClickEffect :=
| NoEffect
| Emit (msg : string * Data)
| SetWinner (p : string).

Definition onRoundWhiteCardClick (card : WhiteCard) : ClickEffect :=
  if negb playerIsHost then NoEffect
  else if wc_hidden card then
    Emit ("game:reveal-card",
          DObj [("gameId", VStr (game_id game));
                ("playerId", VStr (wc_player card))])
  else SetWinner (wc_player card).
End GameView.

(** ** The view: the [Round] component (lines 253-338) *)

(** [groupCardsByPlayer] fills a plain object [players = {}] keyed by
    [card.player], and returns [Object.values(players)].

    Reading [players[key]] goes up the prototype chain: for a key that
    names a property of [Object.prototype] the read gives that property (a
    function, or the prototype itself for [__proto__]), which is truthy, so
    no group object is made, [players[key].cards] is [undefined], and
    [.push] throws a [TypeError].  The names are those of ECMAScript and
    its Annex B. *)
Definition Object_prototype : list string :=
  ["constructor"; "__defineGetter__"; "__defineSetter__"; "hasOwnProperty";
   "__lookupGetter__"; "__lookupSetter__"; "isPrototypeOf";
   "propertyIsEnumerable"; "toString"; "valueOf"; "__proto__";
   "toLocaleString"].

Definition inherited (key : string) : bool :=
  bool_decide (key ∈ Object_prototype).

(** One pass of the loop body for a key that is not inherited: the own
    properties, in the order of their creation. *)
Fixpoint push_card (players : list (string * list WhiteCard)) (card : WhiteCard)
  : list (string * list WhiteCard) :=
  match players with
  | [] => [(wc_player card, [card])]
  | (p, cs) :: rest =>
      if String.eqb p (wc_player card) then (p, cs ++ [card]) :: rest
      else (p, cs) :: push_card rest card
  end.

(** The loop; [None] is the [TypeError]. *)
Fixpoint group_cards (players : list (string * list WhiteCard))
    (cards : list WhiteCard) : option (list (string * list WhiteCard)) :=
  match cards with
  | [] => Some players
  | card :: rest =>
      if inherited (wc_player card) then None
      else group_cards (push_card players card) rest
  end.

(** [Object.values] lists the own properties whose key is an array index
    first, in ascending order of the index, then the others in the order
    of their creation.  An array index is the canonical decimal form of an
    integer below [2^32 - 1]. *)
Definition digit (a : Ascii.ascii) : option N :=
  let n := Ascii.N_of_ascii a in
  if ((48 <=? n) && (n <=? 57))%N then Some (n - 48)%N else None.

Fixpoint digits (s : string) (acc : N) : option N :=
  match s with
  | EmptyString => Some acc
  | String a rest =>
      match digit a with
      | Some d => digits rest (10 * acc + d)%N
      | None => None
      end
  end.

Definition array_index (key : string) : option N :=
  match key with
  | EmptyString => None
  | String a rest =>
      if (Ascii.N_of_ascii a =? 48)%N && negb (String.eqb rest "") then None
      else match digits key 0 with
           | Some n => if (n <? 4294967295)%N then Some n else None
           | None => None
           end
  end.

Definition is_index (key : string) : bool :=
  match array_index key with Some _ => true | None => false end.

Definition index_le (key1 key2 : string) : bool :=
  match array_index key1, array_index key2 with
  | Some i, Some j => (i <=? j)%N
  | _, _ => true
  end.

Fixpoint insert_by_index {A} (x : string * A) (l : list (string * A))
  : list (string * A) :=
  match l with
  | [] => [x]
  | y :: rest =>
      if index_le (fst x) (fst y) then x :: l
      else y :: insert_by_index x rest
  end.

Definition Object_values {A} (props : list (string * A)) : list (string * A) :=
  foldr insert_by_index [] (List.filter (fun kv => is_index (fst kv)) props)
  ++ List.filter (fun kv => negb (is_index (fst kv))) props.

(** A group [{ player, cards }] is the pair of its two fields. *)
Definition groupCardsByPlayer (cards : list WhiteCard)
  : option (list (string * list WhiteCard)) :=
  match group_cards [] cards with
  | Some players => Some (Object_values players)
  | None => None
  end.

(** What [Round] renders of the submissions (lines 309-333).  One card:
    the text shown, and whether it is a button wired to [onCardClick]. *)
Record CardView := mkCardView {
  cv_text : string;
  cv_button : bool
}.

Record GroupView := mkGroupView {
  gv_player : string;
  gv_selected : bool;
  gv_cards : list CardView
}.

Definition hidden_mark : string := "¿?".

Section RoundView.
(** [decodeHtml] goes through the DOM (a [textarea]); it is a parameter. *)
Variable decodeHtml : string -> string.

Definition card_text (c : WhiteCard) : string :=
  if wc_hidden c then hidden_mark else decodeHtml (wc_card c).

Definition card_view (playerIsHost : bool) (c : WhiteCard) : CardView :=
  mkCardView (card_text c) playerIsHost.

Definition group_view (playerIsHost : bool) (winner : option string)
    (group : string * list WhiteCard) : GroupView :=
  mkGroupView (fst group)
    (bool_decide (Some (fst group) = winner))
    (map (card_view playerIsHost) (snd group)).

(** The groups [Round] renders; [None] when the render throws.  With
    [allCardsSent] false, [groupCardsByPlayer] is not called. *)
Definition Round (playerIsHost allCardsSent : bool)
    (winner : option string) (round : OpenRound) : option (list GroupView) :=
  if allCardsSent then
    match groupCardsByPlayer (round_whiteCards round) with
    | Some groups => Some (map (group_view playerIsHost winner) groups)
    | None => None
    end
  else Some [].

(** The round as the [Game] component renders it for its own viewer. *)
Definition view_round (v : View) : option (list GroupView) :=
  Round (playerIsHost v) (allCardsSent v) (view_winner v)
             (game_round (view_game v)).
End RoundView.

(** ** The dispatcher (lines 414-510): what it talks to

    [io.to(x).emit(event, payload)] addresses either one connection (the
    room every socket has under its own id) or a game room.  A listener is
    run from its message to its end in one piece: what other listeners
    could do while it waits on the store is not modelled.  [console.error]
    is left out. *)

Inductive Target :=
| ToSocket (id : string)
| ToRoom (room : string).

Inductive Payload :=
| PGame (g : Game)
| PVal (v : Val)
| PText (msg : string)
| PRound (r : option FinishedRound).

Record Emitted := mkEmitted {
  em_time : nat;
  em_target : Target;
  em_event : string;
  em_payload : Payload
}.

(** The one closure handed to [setTimeout] (line 486), as data: it
    captures the room name and the game object. *)
Inductive Task :=
| RoundWinner (room : string) (game : nat).

Record Timer := mkTimer {
  timer_due : nat;
  timer_task : Task
}.

(** The server's state.  Game objects are mutable and shared: [w_heap]
    holds them by reference, [w_db] is the store's index from session id to
    object.  A handler that has fetched a game keeps its reference whatever
    happens to the index afterwards. *)
Record World := mkWorld {
  w_now : nat;
  w_db : gmap string nat;
  w_heap : list Game;
  w_rooms : gset (string * string);
  w_log : list Emitted;
  w_timers : list Timer
}.

Inductive Result (A : Type) :=
| Ok (a : A)
| Throw (msg : string).
Arguments Ok {A} _.
Arguments Throw {A} _.

(** The methods of the game class the dispatcher calls.  Each command
    either throws or mutates the object and returns it; the value given
    here is the object's state after the call. *)
Module GameClass.
Class Ops := {
  addPlayer : Game -> Val -> Val -> Result Game;
  removePlayer : Game -> Val -> Result Game;
  start : Game -> Result Game;
  playWhiteCards : Game -> Val -> Val -> Result Game;
  discardWhiteCard : Game -> Val -> Val -> Result Game;
  revealCard : Game -> Val -> Result Game;
  finishRound : Game -> Val -> Result Game;
  getLastFinishedRound : Game -> option FinishedRound
}.
End GameClass.

(** ** A monad for listeners: server state, and exceptions that keep the
    effects already made *)

Definition Io (A : Type) : Type := World -> Result A * World.

#[global] Instance Io_ret : MRet Io := fun A a w => (Ok a, w).

#[global] Instance Io_bind : MBind Io := fun A B k m w =>
  match m w with
  | (Ok a, w') => k a w'
  | (Throw msg, w') => (Throw msg, w')
  end.

Definition throw {A} (msg : string) : Io A := fun w => (Throw msg, w).

Definition dquote : string := String (Ascii.ascii_of_nat 34) EmptyString.

(** How a value prints inside a template literal. *)
Definition template (v : Val) : string :=
  match v with
  | VUndefined => "undefined"
  | VNull => "null"
  | VStr s => s
  | VCards cs => String.concat "," cs
  end.

(** Reading one name of a destructuring parameter [{ a, b }]: a name the
    object lacks reads as [undefined].  A string or an array has none of
    the names used here; [undefined] and [null] cannot be destructured. *)
Definition get_field (name : string) (fields : list (string * Val)) : Val :=
  match List.find (fun kv => String.eqb (fst kv) name) fields with
  | Some kv => snd kv
  | None => VUndefined
  end.

Definition field (name : string) (data : Data) : Io Val :=
  match data with
  | DObj fields => mret (get_field name fields)
  | DVal (VStr _) | DVal (VCards _) => mret VUndefined
  | DVal VUndefined =>
      throw ("Cannot destructure property '" +:+ name
             +:+ "' of 'undefined' as it is undefined.")
  | DVal VNull =>
      throw ("Cannot destructure property '" +:+ name
             +:+ "' of 'object null' as it is null.")
  end.

Definition emit (to : Target) (event : string) (payload : Payload) : Io unit :=
  fun w =>
    (Ok tt,
     mkWorld (w_now w) (w_db w) (w_heap w) (w_rooms w)
             (w_log w ++ [mkEmitted (w_now w) to event payload])
             (w_timers w)).

Definition socket_join (socket_id room : string) : Io unit :=
  fun w =>
    (Ok tt,
     mkWorld (w_now w) (w_db w) (w_heap w) ({[ (room, socket_id) ]} ∪ w_rooms w)
             (w_log w) (w_timers w)).

(** Timers are kept in firing order: by due time, then by insertion. *)
Fixpoint enqueue (t : Timer) (queue : list Timer) : list Timer :=
  match queue with
  | [] => [t]
  | t' :: rest =>
      if Nat.ltb (timer_due t) (timer_due t') then t :: t' :: rest
      else t' :: enqueue t rest
  end.

Definition setTimeout (task : Task) (delay : nat) : Io unit :=
  fun w =>
    (Ok tt,
     mkWorld (w_now w) (w_db w) (w_heap w) (w_rooms w) (w_log w)
             (enqueue (mkTimer (w_now w + delay) task) (w_timers w))).

(** Modelled from the spec: the store [db] is not in the file.  The
    Session Directory's [get(id)] "fails with GameNotFound if unknown" and
    its [remove(id)] "evicts a session"; a game is filed under its id.  The
    store hands out the game object itself, not a copy. *)
Definition db_getGame (gameId : Val) : Io nat :=
  fun w =>
    match gameId with
    | VStr id =>
        match w_db w !! id with
        | Some ref => (Ok ref, w)
        | None => (Throw "GameNotFound", w)
        end
    | _ => (Throw "GameNotFound", w)
    end.

Definition db_removeGame (game : Game) : Io unit :=
  fun w =>
    (Ok tt,
     mkWorld (w_now w) (delete (game_id game) (w_db w)) (w_heap w) (w_rooms w)
             (w_log w) (w_timers w)).

(** A method call on the object behind a reference: on success the
    object is updated in place and returned; a throwing call leaves it as
    it was.  (References come from [db_getGame] and objects are never
    freed, so the lookup succeeds on every reachable state.) *)
Definition invoke (ref : nat) (method : Game -> Result Game) : Io Game :=
  fun w =>
    match w_heap w !! ref with
    | None => (Throw "TypeError", w)
    | Some g =>
        match method g with
        | Ok g' =>
            (Ok g',
             mkWorld (w_now w) (w_db w) (<[ref := g']> (w_heap w)) (w_rooms w)
                     (w_log w) (w_timers w))
        | Throw msg => (Throw msg, w)
        end
    end.

(** A connection is reached by what is sent to it or to a room it
    joined. *)
Definition receives (w : World) (socket_id : string) (e : Emitted) : Prop :=
  match em_target e with
  | ToSocket id => id = socket_id
  | ToRoom room => (room, socket_id) ∈ w_rooms w
  end.

(** A computation keeps the pending timers and the live objects: what it
    leaves on the queue includes what was there, and no reference is
    lost. *)
Definition keeps {A} (m : Io A) : Prop :=
  ∀ w r w', m w = (r, w') →
    (∀ tm, tm ∈ w_timers w → tm ∈ w_timers w')
    ∧ length (w_heap w') = length (w_heap w).

Create HintDb keeps discriminated.

(** What a client must not get, by claim C1: a broadcast that reaches
    [socket_id], who is not the judge, with the card of somebody else's
    submission that is still hidden ([wc_card] is the card's text). *)
Definition receives_hidden_text (w : World) (socket_id : string) (e : Emitted)
    (c : WhiteCard) : Prop :=
  receives w socket_id e
  ∧ ∃ g, em_payload e = PGame g
       ∧ round_host (game_round g) ≠ Some socket_id
       ∧ c ∈ round_whiteCards (game_round g)
       ∧ wc_hidden c = true
       ∧ wc_player c ≠ socket_id.

(** ** The dispatcher: [handleMessage] and the listeners *)

(** The text of line 422. *)
Definition error_text (key err : string) : string :=
  "error on " +:+ dquote +:+ key +:+ dquote +:+ " listener: " +:+ err.

Section Sockets.
Context {ops : GameClass.Ops}.
Variable socket_id : string.

(** [handleMessage] (lines 417-427): run the listener; if it throws,
    send the message to the originating connection. *)
Definition handleMessage (key : string) (listener : Data -> Io unit)
    (data : Data) (w : World) : World :=
  match listener data w with
  | (Ok _, w') => w'
  | (Throw err, w') =>
      let msg := error_text key err in
      snd (emit (ToSocket socket_id) "error" (PText msg) w')
  end.

Definition room_of (gameId : Val) : string := "game-" +:+ template gameId.

(** Each listener is its parameter destructuring followed by its body. *)

Definition join_body (gameId name playerId : Val) : Io unit :=
  let room := room_of gameId in
  socket_join socket_id room;;
  ref ← db_getGame gameId;
  game ← invoke ref (fun g => GameClass.addPlayer g playerId name);
  emit (ToRoom room) "game:edit" (PGame game).

Definition on_join (data : Data) : Io unit :=
  gameId ← field "gameId" data;
  name ← field "name" data;
  playerId ← field "playerId" data;
  join_body gameId name playerId.

Definition leave_body (gameId playerId : Val) : Io unit :=
  let room := room_of gameId in
  ref ← db_getGame gameId;
  game ← invoke ref (fun g => GameClass.removePlayer g playerId);
  emit (ToRoom room) "game:edit" (PGame game);;
  emit (ToRoom room) "game:kick" (PVal playerId);;
  if decide (length (game_players game) = 0) then db_removeGame game
  else mret tt.

Definition on_leave (data : Data) : Io unit :=
  gameId ← field "gameId" data;
  playerId ← field "playerId" data;
  leave_body gameId playerId.

(** ['game:start'] takes the game id itself, not an object. *)
Definition on_start (data : Data) : Io unit :=
  match data with
  | DVal gameId =>
      let room := room_of gameId in
      ref ← db_getGame gameId;
      game ← invoke ref GameClass.start;
      emit (ToRoom room) "game:edit" (PGame game)
  | DObj _ =>
      (* [`game-${gameId}`] of an object is "game-[object Object]" *)
      throw "GameNotFound"
  end.

Definition play_white_cards_body (gameId cards playerId : Val) : Io unit :=
  let room := room_of gameId in
  ref ← db_getGame gameId;
  game ← invoke ref (fun g => GameClass.playWhiteCards g cards playerId);
  emit (ToRoom room) "game:edit" (PGame game);;
  emit (ToRoom room) "game:cards-played" (PVal cards).

Definition on_play_white_cards (data : Data) : Io unit :=
  gameId ← field "gameId" data;
  cards ← field "cards" data;
  playerId ← field "playerId" data;
  play_white_cards_body gameId cards playerId.

Definition discard_white_card_body (gameId cards playerId : Val) : Io unit :=
  let room := room_of gameId in
  ref ← db_getGame gameId;
  game ← invoke ref (fun g => GameClass.discardWhiteCard g cards playerId);
  emit (ToRoom room) "game:edit" (PGame game).

Definition on_discard_white_card (data : Data) : Io unit :=
  gameId ← field "gameId" data;
  cards ← field "cards" data;
  playerId ← field "playerId" data;
  discard_white_card_body gameId cards playerId.

Definition reveal_card_body (gameId playerId : Val) : Io unit :=
  let room := room_of gameId in
  ref ← db_getGame gameId;
  game ← invoke ref (fun g => GameClass.revealCard g playerId);
  emit (ToRoom room) "game:edit" (PGame game).

Definition on_reveal_card (data : Data) : Io unit :=
  gameId ← field "gameId" data;
  playerId ← field "playerId" data;
  reveal_card_body gameId playerId.

Definition finish_round_body (gameId winnerPlayerId : Val) : Io unit :=
  let room := room_of gameId in
  ref ← db_getGame gameId;
  game' ← invoke ref (fun g => GameClass.finishRound g winnerPlayerId);
  emit (ToRoom room) "game:edit" (PGame game');;
  setTimeout (RoundWinner room ref) 500.

Definition on_finish_round (data : Data) : Io unit :=
  gameId ← field "gameId" data;
  winnerPlayerId ← field "winnerPlayerId" data;
  finish_round_body gameId winnerPlayerId.

(** The seven game listeners registered on a connection, by message name.
    The five others (['game:new'], which answers the sender with
    ['game:new'], and ['deck:request'], ['deck:saved'], ['deck:share'],
    ['deck:unshare'], which answer with ['deck:response'] to the sender and
    ['deck:saved'] to the deck's host) need the deck registry and the
    store's [createGame]; they touch no existing game and are not part of
    this model, so what a message emits is stated for the seven only. *)
Definition listener_of (key : string) : option (Data -> Io unit) :=
  if String.eqb key "game:join" then Some on_join
  else if String.eqb key "game:leave" then Some on_leave
  else if String.eqb key "game:start" then Some on_start
  else if String.eqb key "game:play-white-cards" then Some on_play_white_cards
  else if String.eqb key "game:discard-white-card" then Some on_discard_white_card
  else if String.eqb key "game:reveal-card" then Some on_reveal_card
  else if String.eqb key "game:finish-round" then Some on_finish_round
  else None.

(** One inbound message on this connection. *)
Definition receive (msg : string * Data) (w : World) : World :=
  match listener_of (fst msg) with
  | Some listener => handleMessage (fst msg) listener (snd msg) w
  | None => w
  end.
End Sockets.

(** ** Time: firing the timers *)

Section Timers.
Context {ops : GameClass.Ops}.

Definition set_now (t : nat) (w : World) : World :=
  mkWorld t (w_db w) (w_heap w) (w_rooms w) (w_log w) (w_timers w).

Definition set_timers (ts : list Timer) (w : World) : World :=
  mkWorld (w_now w) (w_db w) (w_heap w) (w_rooms w) (w_log w) ts.

(** The callback of line 487: it reads the captured game object as it
    is when the timer fires.  (The object is alive as long as the closure
    is; the other branch stands for a call on a missing object.) *)
Definition on_timeout (task : Task) : Io unit :=
  match task with
  | RoundWinner room ref =>
      fun w =>
        match w_heap w !! ref with
        | Some game =>
            emit (ToRoom room) "game:round-winner"
                 (PRound (GameClass.getLastFinishedRound game)) w
        | None => (Throw "TypeError", w)
        end
  end.

(** Running a timer's callback at its due time. *)
Definition fire (t : Timer) (w : World) : World :=
  snd (on_timeout (timer_task t) (set_now (Nat.max (w_now w) (timer_due t)) w)).

(** Let the clock reach [t]: every timer due by then fires, in queue
    order, and is gone afterwards. *)
Definition advance (t : nat) (w : World) : World :=
  let due := filter (fun tm => timer_due tm ≤ t) (w_timers w) in
  let later := filter (fun tm => ¬ timer_due tm ≤ t) (w_timers w) in
  let w' := foldl (fun w tm => fire tm w) (set_timers later w) due in
  set_now (Nat.max (w_now w') t) w'.

(** A run of the server: messages arriving on connections, and time
    passing in between. *)
Inductive Step :=
| Recv (socket_id : string) (msg : string * Data)
| Wait (t : nat).

Definition step (s : Step) (w : World) : World :=
  match s with
  | Recv socket_id msg => receive socket_id msg w
  | Wait t => advance t w
  end.

Definition run (steps : list Step) (w : World) : World :=
  foldl (fun w s => step s w) w steps.
End Timers.

(** ** The game class, from the specification

    The class behind [GameClass.Ops] is not in the file.  The model below
    follows sections 4.1 and 4.2 of the specification; the three numbers
    the specification leaves open are configuration constants.  Shuffling
    is the identity: the order of a pile is the order it is drawn in. *)

Module SpecGame.

Definition HAND_LIMIT : nat := 3.
Definition MIN_PLAYERS : nat := 3.
Definition MAX_ROUNDS : nat := 10.

(** Modelled from the spec: [drawPrompt] "removes and returns one prompt
    card; if the prompt pool is empty, reshuffles the exhausted/used prompt
    pile back in before drawing; fails with DeckExhausted only if no prompt
    cards exist at all". *)
Definition drawPrompt (d : Deck) : Result (BlackCard * Deck) :=
  match deck_prompts d with
  | c :: rest =>
      Ok (c, mkDeck rest (deck_usedPrompts d ++ [c])
                    (deck_responses d) (deck_discard d))
  | [] =>
      match deck_usedPrompts d with
      | c :: rest => Ok (c, mkDeck rest [c] (deck_responses d) (deck_discard d))
      | [] => Throw "DeckExhausted"
      end
  end.

(** Modelled from the spec: [drawResponses] draws [n] cards with the same
    reshuffle policy, best effort: a supply that cannot give [n] cards
    gives what it has "rather than blocking". *)
Fixpoint drawResponses (d : Deck) (n : nat) : list string * Deck :=
  match n with
  | O => ([], d)
  | S n' =>
      let d1 :=
        match deck_responses d with
        | [] => mkDeck (deck_prompts d) (deck_usedPrompts d) (deck_discard d) []
        | _ => d
        end in
      match deck_responses d1 with
      | [] => ([], d1)
      | c :: rest =>
          let '(cs, d2) :=
            drawResponses
              (mkDeck (deck_prompts d1) (deck_usedPrompts d1) rest (deck_discard d1))
              n' in
          (c :: cs, d2)
      end
  end.

(** Modelled from the spec: [returnResponses] "puts discarded/unwanted
    cards back into the loan's discard pile". *)
Definition returnResponses (d : Deck) (cards : list string) : Deck :=
  mkDeck (deck_prompts d) (deck_usedPrompts d) (deck_responses d)
         (deck_discard d ++ cards).

Definition has_id (id : string) (p : Player) : bool := String.eqb (player_id p) id.

Definition find_player (id : string) (g : Game) : option Player :=
  List.find (has_id id) (game_players g).

Fixpoint index_of (id : string) (ps : list Player) : option nat :=
  match ps with
  | [] => None
  | p :: rest => if has_id id p then Some 0 else S <$> index_of id rest
  end.

Definition has_submitted (id : string) (r : OpenRound) : bool :=
  existsb (fun c => String.eqb (wc_player c) id) (round_whiteCards r).

Definition is_host (id : string) (r : OpenRound) : bool :=
  bool_decide (round_host r = Some id).

Definition with_players (ps : list Player) (g : Game) : Game :=
  mkGame (game_id g) ps (game_round g) (game_finishedRounds g)
         (game_finished g) (game_deck g).

Definition with_round (r : OpenRound) (g : Game) : Game :=
  mkGame (game_id g) (game_players g) r (game_finishedRounds g)
         (game_finished g) (game_deck g).

Definition with_deck (d : Deck) (g : Game) : Game :=
  mkGame (game_id g) (game_players g) (game_round g) (game_finishedRounds g)
         (game_finished g) d.

Definition with_host (h : option string) (r : OpenRound) : OpenRound :=
  mkRound h (round_blackCard r) (round_whiteCards r) tt.

Definition with_whiteCards (cs : list WhiteCard) (r : OpenRound) : OpenRound :=
  mkRound (round_host r) (round_blackCard r) cs tt.

(** Modelled from the spec: [addPlayer] "fails with GameFinished if the
    session is closed to new players; otherwise appends a Player with 0
    points, draws a fresh hand sized to the house hand limit, and, if no
    host is currently assigned, assigns this player as host.  Re-adding an
    id already present reuses the existing Player".  An id that is not a
    string is nobody's id and cannot be added. *)
Definition addPlayer (g : Game) (id name : Val) : Result Game :=
  if game_finished g then Throw "GameFinished"
  else
    match id with
    | VStr id =>
        match find_player id g with
        | Some _ => Ok g
        | None =>
            let '(hand, d) := drawResponses (game_deck g) HAND_LIMIT in
            let r := game_round g in
            let r' := match round_host r with
                      | None => with_host (Some id) r
                      | Some _ => r
                      end in
            Ok (with_deck d
                 (with_round r'
                   (with_players
                      (game_players g ++ [mkPlayer id (template name) 0 hand]) g)))
        end
    | _ => Throw "NotFound"
    end.

(** Modelled from the spec: [removePlayer] "removes the player, returns
    their unsubmitted hand to the discard pool, and reassigns the judge
    role if the removed player was host (next-in-join-order becomes host);
    if the removed player had already submitted in the current round,
    their submission is retracted".  Removing an id nobody has changes
    nothing. *)
Definition removePlayer (g : Game) (id : Val) : Result Game :=
  match id with
  | VStr id =>
      match find_player id g, index_of id (game_players g) with
      | Some p, Some i =>
          let ps := List.filter (fun q => negb (has_id id q)) (game_players g) in
          let r := game_round g in
          let cs := List.filter (fun c => negb (String.eqb (wc_player c) id))
                                (round_whiteCards r) in
          let h := if is_host id r
                   then player_id <$> (ps !! (i mod length ps))
                   else round_host r in
          Ok (with_deck (returnResponses (game_deck g) (player_cards p))
               (with_round (with_host h (with_whiteCards cs r))
                 (with_players ps g)))
      | _, _ => Ok g
      end
  | _ => Ok g
  end.

(** Modelled from the spec: [start] "fails with NotEnoughPlayers if fewer
    than 3 players are present". *)
Definition start (g : Game) : Result Game :=
  if Nat.ltb (length (game_players g)) MIN_PLAYERS then Throw "NotEnoughPlayers"
  else Ok g.

Definition remove_cards (cs hand : list string) : list string :=
  List.filter (fun c => negb (existsb (String.eqb c) cs)) hand.

Definition update_player (p' : Player) (ps : list Player) : list Player :=
  map (fun p => if has_id (player_id p') p then p' else p) ps.

(** Modelled from the spec: [playWhiteCards] "fails with NotYourTurn if
    playerId is the host, AlreadySubmitted if playerId already has a
    submission this round, WrongCardCount if len(cards) != pick,
    CardNotInHand if any card is not currently in the player's hand.  On
    success: removes the cards from the player's hand, appends a hidden
    submission, refills the hand back to the limit". *)
Definition playWhiteCards (g : Game) (cards playerId : Val) : Result Game :=
  match playerId, cards with
  | VStr id, VCards cs =>
      let r := game_round g in
      if is_host id r then Throw "NotYourTurn"
      else if has_submitted id r then Throw "AlreadySubmitted"
      else if negb (Nat.eqb (length cs) (black_pick (round_blackCard r)))
      then Throw "WrongCardCount"
      else
        match find_player id g with
        | None => Throw "CardNotInHand"
        | Some p =>
            if negb (forallb (fun c => existsb (String.eqb c) (player_cards p)) cs)
            then Throw "CardNotInHand"
            else
              let hand := remove_cards cs (player_cards p) in
              let '(drawn, d) :=
                drawResponses (game_deck g) (HAND_LIMIT - length hand) in
              let p' := mkPlayer (player_id p) (player_name p) (player_points p)
                                 (hand ++ drawn) in
              let played := map (fun c => mkWhiteCard id c true) cs in
              Ok (with_deck d
                   (with_round (with_whiteCards (round_whiteCards r ++ played) r)
                     (with_players (update_player p' (game_players g)) g)))
        end
  | VStr _, _ => Throw "WrongCardCount"
  | _, _ => Throw "CardNotInHand"
  end.

(** Modelled from the spec: [discardWhiteCard] is "only legal while the
    player's submission for the round is still the sole one; fails with
    NotFound if the card is not the player's current pending submission;
    returns the card to the discard pool and lets the player resubmit". *)
Definition discardWhiteCard (g : Game) (card playerId : Val) : Result Game :=
  match playerId, card with
  | VStr id, VStr c =>
      let r := game_round g in
      let mine := fun w => String.eqb (wc_player w) id in
      if existsb (fun w => mine w && String.eqb (wc_card w) c) (round_whiteCards r)
         && forallb mine (round_whiteCards r)
      then Ok (with_deck (returnResponses (game_deck g) [c])
                (with_round (with_whiteCards [] r) g))
      else Throw "NotFound"
  | _, _ => Throw "NotFound"
  end.

(** Modelled from the spec: [revealCard] "fails with NoSuchSubmission if
    targetPlayerId has no submission; flips that submission's hidden to
    false; revealing an already-revealed card is a no-op".  (The
    dispatcher passes the target only, so there is no host to check.) *)
Definition revealCard (g : Game) (playerId : Val) : Result Game :=
  match playerId with
  | VStr id =>
      let r := game_round g in
      if has_submitted id r then
        Ok (with_round
              (with_whiteCards
                 (map (fun w => if String.eqb (wc_player w) id
                                then mkWhiteCard (wc_player w) (wc_card w) false
                                else w)
                      (round_whiteCards r)) r) g)
      else Throw "NoSuchSubmission"
  | _ => Throw "NoSuchSubmission"
  end.

(** The judge after [host], in join order, wrapping. *)
Definition next_host (host : option string) (ps : list Player) : option string :=
  match host with
  | Some h =>
      match index_of h ps with
      | Some i => player_id <$> (ps !! ((i + 1) mod length ps))
      | None => player_id <$> head ps
      end
  | None => player_id <$> head ps
  end.

(** Modelled from the spec: [finishRound] "fails with InvalidWinner if
    winnerPlayerId did not submit this round or is the host; increments
    the winner's points by 1; snapshots the Round (with winner) into
    finishedRounds; draws a new prompt card and a new host; resets
    submissions to empty for the new round; if a fixed end condition is
    met, sets finished = true instead of starting a new round". *)
Definition finishRound (g : Game) (winnerPlayerId : Val) : Result Game :=
  match winnerPlayerId with
  | VStr id =>
      let r := game_round g in
      match find_player id g with
      | Some p =>
          if negb (has_submitted id r) || is_host id r then Throw "InvalidWinner"
          else
            let p' := mkPlayer (player_id p) (player_name p)
                               (S (player_points p)) (player_cards p) in
            let ps := update_player p' (game_players g) in
            let done := game_finishedRounds g ++ [spread_winner r id] in
            if Nat.leb MAX_ROUNDS (length done) || Nat.ltb (length ps) 2
            then Ok (mkGame (game_id g) ps r done true (game_deck g))
            else
              match drawPrompt (game_deck g) with
              | Throw msg => Throw msg
              | Ok (card, d) =>
                  Ok (mkGame (game_id g) ps
                             (mkRound (next_host (round_host r) ps) card [] tt)
                             done (game_finished g) d)
              end
      | None => Throw "InvalidWinner"
      end
  | _ => Throw "InvalidWinner"
  end.

(** Modelled from the spec: [getLastFinishedRound] is a "pure read,
    returns the most recent snapshot or null if none exists". *)
Definition getLastFinishedRound (g : Game) : option FinishedRound :=
  last (game_finishedRounds g).

Definition ops : GameClass.Ops := {|
  GameClass.addPlayer := addPlayer;
  GameClass.removePlayer := removePlayer;
  GameClass.start := start;
  GameClass.playWhiteCards := playWhiteCards;
  GameClass.discardWhiteCard := discardWhiteCard;
  GameClass.revealCard := revealCard;
  GameClass.finishRound := finishRound;
  GameClass.getLastFinishedRound := getLastFinishedRound
|}.

End SpecGame.

(** ** A running game, for concrete runs *)

Module Example.

Definition deck1 : Deck :=
  mkDeck [mkBlackCard "Why not?" 1; mkBlackCard "Who?" 1] [mkBlackCard "Why?" 1]
         ["d1"; "d2"; "d3"; "d4"; "d5"; "d6"] [].

(** Three players in join order, A judging, nothing submitted yet. *)
Definition game1 : Game :=
  mkGame "g1"
    [mkPlayer "A" "Ann" 0 ["a1"; "a2"; "a3"];
     mkPlayer "B" "Bob" 0 ["b1"; "b2"; "b3"];
     mkPlayer "C" "Cy" 0 ["c1"; "c2"; "c3"]]
    (mkRound (Some "A") (mkBlackCard "Why?" 1) [] tt)
    [] false deck1.

Definition world1 : World :=
  mkWorld 0 {[ "g1" := 0 ]} [game1]
          {[ ("game-g1", "A"); ("game-g1", "B"); ("game-g1", "C") ]}
          [] [].

Definition send (socket_id : string) (msg : string * Data) : World -> World :=
  @receive SpecGame.ops socket_id msg.

Definition play (id card : string) : string * Data :=
  ("game:play-white-cards",
   DObj [("gameId", VStr "g1"); ("cards", VCards [card]); ("playerId", VStr id)]).

Definition leave (id : string) : string * Data :=
  ("game:leave", DObj [("gameId", VStr "g1"); ("playerId", VStr id)]).

Definition finish (winner : string) : string * Data :=
  ("game:finish-round",
   DObj [("gameId", VStr "g1"); ("winnerPlayerId", VStr winner)]).

(** B has submitted "b1". *)
Definition world2 : World := send "B" (play "B" "b1") world1.

(** C has submitted too. *)
Definition world2c : World := send "C" (play "C" "c1") world2.

(** The judge has declared B the winner. *)
Definition world3 : World := send "A" (finish "B") world2c.

(** 100 ms later everybody leaves; the last leave removes the game. *)
Definition everybody_leaves : list Step :=
  [Wait 100; Recv "A" (leave "A"); Recv "B" (leave "B"); Recv "C" (leave "C")].

Definition world4 : World := @run SpecGame.ops everybody_leaves world3.

(** The clock reaches the due time of the announcement. *)
Definition world5 : World := @advance SpecGame.ops 500 world4.

(** The one game object of these worlds, as it is in world [w]. *)
Definition game_in (w : World) : Game := default game1 (w_heap w !! 0).

(** The screen of the player on connection [playerId]. *)
Definition view_of (playerId : string) (w : World) : View :=
  mkView playerId (game_in w) None.

End Example.

(** ** The view: the rest of [Game.jsx]

    The components around the round: what the effect hook sends when the
    viewer is not yet a player, the card picker, and the two modals. *)

(** The effect of lines 43-65, after a render with socket and game
    present: a viewer who is not among the players is asked for a name
    ([window.prompt] gives a string, or [null] on cancel) and the view
    sends a join. *)
Definition joinOnRender (v : View) (name : Val) : option (string * Data) :=
  match playerData v with
  | Some _ => None
  | None =>
      Some ("game:join",
            DObj [("gameId", VStr (game_id (view_game v))); ("name", name)])
  end.

(** *** [CardPicker] (lines 340-413) *)

(** [arr.slice(-n)]: the last [n] elements, all of them when there are
    fewer; [-0] is [0], so [slice(-0)] is the whole array. *)
Definition js_slice_last {A} (n : nat) (l : list A) : list A :=
  if Nat.eqb n 0 then l else drop (length l - n) l.

(** [selected.indexOf(card) !== -1] *)
Definition cardIsSelected (selected : list string) (card : string) : bool :=
  bool_decide (card ∈ selected).

Definition selectCard (cardsToPick : nat) (selected : list string)
    (card : string) : list string :=
  if cardIsSelected selected card then filter (fun c => c ≠ card) selected
  else js_slice_last cardsToPick (selected ++ [card]).

Definition readyToSend (cardsToPick : nat) (selected : list string) : bool :=
  Nat.leb cardsToPick (length selected).

(** The discard button is inside the block that [readyToSend] guards. *)
Definition discardShown (cardsToPick : nat) (selected : list string) : bool :=
  readyToSend cardsToPick selected && Nat.eqb (length selected) 1.

(** What happens to the picker: a click on a card of the hand, a press on
    a button, or a new render of [Game], from a newer game state or from a
    state change of its own.  [Rerender None] is the render that returns
    [GameMessage] (no socket, or no game).  A button that is not rendered
    cannot be pressed. *)
Inductive PickerAction :=
| Pick (card : string)
| PressSend
| PressDiscard
| Rerender (r : option View).

(** The [CardPicker] on the screen: the view of the render it belongs to
    and its [selected] state; [None] when the last render has no
    [CardPicker].  React keeps the state of a component from one render to
    the next as long as the component stays at its place, so [selected]
    outlives a change of [cardsToPick]; a [CardPicker] that was away starts
    again from [useState([])]. *)
Definition Picker : Type := option (View * list string).

Definition render_picker (r : option View) (p : Picker) : Picker :=
  match r with
  | Some v =>
      if showHand v
      then Some (v, match p with Some (_, selected) => selected | None => [] end)
      else None
  | None => None
  end.

(** One action: the picker afterwards, and the message sent if any.
    [sendCards] passes the selection to [playCards], [discard] passes
    [selected[0]] to [discardWhiteCards]; both clear the selection.  The
    handlers are those of the last render. *)
Definition picker_step (p : Picker) (a : PickerAction)
  : Picker * option (string * Data) :=
  match a, p with
  | Rerender r, _ => (render_picker r p, None)
  | _, None => (None, None)
  | Pick card, Some (v, selected) =>
      (Some (v, selectCard (cardsToPick v) selected card), None)
  | PressSend, Some (v, selected) =>
      if readyToSend (cardsToPick v) selected
      then (Some (v, []), Some (playCards v selected))
      else (p, None)
  | PressDiscard, Some (v, selected) =>
      match discardShown (cardsToPick v) selected, selected with
      | true, card :: _ => (Some (v, []), Some (discardWhiteCards v card))
      | _, _ => (p, None)
      end
  end.

(** A sequence of actions: the picker left, and the messages sent, in
    order. *)
Fixpoint picker_run (p : Picker) (actions : list PickerAction)
  : Picker * list (string * Data) :=
  match actions with
  | [] => (p, [])
  | a :: rest =>
      let '(p', sent) := picker_step p a in
      let '(final, later) := picker_run p' rest in
      (final, match sent with Some m => m :: later | None => later end)
  end.






(** *** [GameOverModal] (lines 199-213) *)

(** [players.slice().sort((a, b) => b.points - a.points)]: the sort is
    stable and the comparator puts the higher score first, so a player goes
    behind everybody with at least as many points who was before him. *)
Fixpoint insert_by_points (p : Player) (sorted : list Player) : list Player :=
  match sorted with
  | [] => [p]
  | q :: rest =>
      if Nat.ltb (player_points q) (player_points p) then p :: q :: rest
      else q :: insert_by_points p rest
  end.

Definition sort_by_points (players : list Player) : list Player :=
  foldl (fun sorted p => insert_by_points p sorted) [] players.

Record ScoreLine := mkScoreLine {
  sl_key : string;
  sl_name : string;
  sl_points : nat
}.

Record GameOverView := mkGameOverView {
  go_show : bool;
  go_lines : list ScoreLine
}.

Definition GameOverModal (game : Game) : GameOverView :=
  let players := sort_by_points (game_players game) in
  mkGameOverView (game_finished game)
    (map (fun p => mkScoreLine (player_id p) (player_name p) (player_points p))
         players).

(** *** [RoundModal] (lines 215-230) *)

Record RoundModalView := mkRoundModalView {
  rm_show : bool;
  rm_title : string;
  rm_black_text : string;
  rm_black_badge : option nat;
  rm_white_texts : list string
}.

Section RoundModalView.
Variable decodeHtml : string -> string.

(** [`Ganador de la ronda: ${round?.winner?.name}`]: a missing round or
    winner prints as "undefined".  Without a round the black card is
    [{ text: '' }], which has no [pick]. *)
Definition RoundModal (show : bool) (game : Game) : RoundModalView :=
  let round := getLastFinishedRound game in
  let name :=
    match round with
    | Some r =>
        match round_winner r with
        | Some p => player_name p
        | None => "undefined"
        end
    | None => "undefined"
    end in
  mkRoundModalView show
    ("Ganador de la ronda: " +:+ name)
    (decodeHtml (match round with
                 | Some r => black_text (round_blackCard r)
                 | None => ""
                 end))
    (match round with
     | Some r => Some (black_pick (round_blackCard r))
     | None => None
     end)
    (map (fun c => decodeHtml (wc_card c))
         (match round with Some r => round_whiteCards r | None => [] end)).
End RoundModalView.

(** The game id a message names, as the listeners read it: the [gameId]
    field of an object, or the payload itself for ['game:start']. *)
Definition named_game (data : Data) : Val :=
  match data with
  | DObj fields => get_field "gameId" fields
  | DVal v => v
  end.

(** *** The effect hook's socket listeners (lines 43-65) *)

(** The listeners registered on the view's socket, by event name, in the
    order they were added.  [socket.off(event)] removes every listener of
    the event. *)
Definition socket_on (event : string) (listeners : list string) : list string :=
  listeners ++ [event].

Definition socket_off (event : string) (listeners : list string) : list string :=
  filter (fun e => e ≠ event) listeners.

(** What a render of [Game] sees of [socket] and [game]. *)
Record Render := mkRender {
  r_socket : bool;
  r_game : bool
}.

Definition effect (r : Render) (listeners : list string) : list string :=
  if r_socket r && r_game r then
    socket_on "game:round-winner"
      (socket_on "game:cards-played" (socket_on "game:edit" listeners))
  else listeners.

Definition cleanup (r : Render) (listeners : list string) : list string :=
  if r_socket r then socket_off "game:edit" listeners else listeners.

(** The hook has no dependency list: its effect runs after every render,
    after the cleanup that the previous render's effect returned. *)
Fixpoint after_renders (prev : option Render) (rs : list Render)
    (listeners : list string) : list string * option Render :=
  match rs with
  | [] => (listeners, prev)
  | r :: rest =>
      after_renders (Some r) rest
        (effect r (match prev with
                   | Some p => cleanup p listeners
                   | None => listeners
                   end))
  end.

(** Unmounting runs the last cleanup. *)
Definition after_unmount (rs : list Render) : list string :=
  let '(listeners, last) := after_renders None rs [] in
  match last with
  | Some p => cleanup p listeners
  | None => listeners
  end.

Definition listeners_of (event : string) (listeners : list string) : nat :=
  length (filter (fun e => e = event) listeners).

Definition ready_renders (rs : list Render) : nat :=
  length (filter (fun r => r_socket r && r_game r = true) rs).

(** The shape of the grouping of [cards]. *)
Definition grouped (cards : list WhiteCard)
    (groups : list (string * list WhiteCard)) : Prop :=
  NoDup groups.*1
  ∧ (∀ p cs, (p, cs) ∈ groups →
       cs ≠ [] ∧ cs = filter (fun c => wc_player c = p) cards)
  ∧ (∀ c, c ∈ cards → wc_player c ∈ groups.*1)
  ∧ concat groups.*2 ≡ₚ cards.

(** The order of the score board: the higher score first. *)
Definition by_points_desc (a b : Player) : Prop :=
  player_points b ≤ player_points a.

(** *** More running games, for concrete runs *)

(** B and C have submitted and the judge has revealed B's card. *)
Definition example_revealed : World :=
  Example.send "A"
    ("game:reveal-card", DObj [("gameId", VStr "g1"); ("playerId", VStr "B")])
    Example.world2c.

(** The round is finished and, 100 ms later, A and B have left: C is the
    last player. *)
Definition example_last : World :=
  @run SpecGame.ops
    [Wait 100; Recv "A" (Example.leave "A"); Recv "B" (Example.leave "B")]
    Example.world3.

(** The first game with a black card that asks for two cards, and B's
    screen in both. *)
Definition game_pick_two : Game :=
  mkGame "g1" (game_players Example.game1)
    (mkRound (Some "A") (mkBlackCard "Why and how?" 2) [] tt)
    [] false Example.deck1.

Definition example_pick_two : View := mkView "B" game_pick_two None.

Definition example_pick_one : View := mkView "B" Example.game1 None.

(** A second game, of two players, beside the first. *)
Definition game2 : Game :=
  mkGame "g2"
    [mkPlayer "X" "Xi" 0 ["x1"; "x2"; "x3"]; mkPlayer "Y" "Yo" 0 ["y1"; "y2"; "y3"]]
    (mkRound (Some "X") (mkBlackCard "Where?" 1) [] tt)
    [] false Example.deck1.

Definition example_two_games : World :=
  mkWorld 0 {[ "g1" := 0; "g2" := 1 ]} [Example.game1; game2]
          {[ ("game-g1", "B"); ("game-g2", "Y") ]} [] [].

(** * Properties *)

(** ** The view's [getLastFinishedRound] *)

Lemma js_index_last {A} (l : list A) :
  js_index l (Z.of_nat (length l) - 1) = last l.
Proof.
  unfold js_index. destruct l as [|x l] using rev_ind.
  - reflexivity.
  - rewrite length_app, last_snoc. simpl length.
    destruct (Z.ltb_spec (Z.of_nat (length l + 1) - 1) 0) as [Hneg|_]; [lia|].
    replace (Z.to_nat (Z.of_nat (length l + 1) - 1)) with (length l + 0) by lia.
    rewrite lookup_app_r by lia.
    replace (length l + 0 - length l) with 0 by lia. reflexivity.
Qed.

Lemma getLastFinishedRound_unfold (game : Game) :
  getLastFinishedRound game =
  (fun round =>
     spread_winner round
       (List.find (fun p => String.eqb (player_id p) (round_winner round))
                  (game_players game)))
  <$> last (game_finishedRounds game).
Proof.
  unfold getLastFinishedRound. rewrite js_index_last.
  destruct (last (game_finishedRounds game)); reflexivity.
Qed.

(** C6.  [getLastFinishedRound] returns [null] for a game with no
    finished round, and otherwise the snapshot taken from the last element
    of [finishedRounds]: its host, black card and white cards, with the
    winner field set by the function (see C10). *)
Theorem getLastFinishedRound_most_recent
    (id : string) (players : list Player) (round : OpenRound) (finished : bool)
    (deck : Deck) :
  getLastFinishedRound (mkGame id players round [] finished deck) = None
  ∧ ∀ (older : list FinishedRound) (r : FinishedRound),
      ∃ res,
        getLastFinishedRound (mkGame id players round (older ++ [r]) finished deck)
        = Some res
        ∧ round_host res = round_host r
        ∧ round_blackCard res = round_blackCard r
        ∧ round_whiteCards res = round_whiteCards r.
Proof.
  split; [reflexivity|]. intros older r.
  rewrite getLastFinishedRound_unfold. simpl. rewrite last_snoc. simpl.
  eexists. split; [reflexivity|]. auto.
Qed.

Lemma find_first_split {A} (f : A -> bool) (l : list A) :
  match List.find f l with
  | Some x => ∃ before after,
      l = before ++ x :: after ∧ f x = true ∧ ∀ y, y ∈ before → f y = false
  | None => ∀ y, y ∈ l → f y = false
  end.
Proof.
  induction l as [|a l IH]; simpl.
  - intros y Hy. inversion Hy.
  - destruct (f a) eqn:Hfa.
    + exists [], l. split; [reflexivity|]. split; [assumption|].
      intros y Hy. inversion Hy.
    + destruct (List.find f l) as [x|].
      * destruct IH as (before & after & -> & Hx & Hbefore).
        exists (a :: before), after. split; [reflexivity|]. split; [assumption|].
        intros y Hy. apply elem_of_cons in Hy as [->|Hy]; auto.
      * intros y Hy. apply elem_of_cons in Hy as [->|Hy]; auto.
Qed.

(** C10.  For a game with a finished round, the object returned by
    [getLastFinishedRound] has in its winner field the player object whose
    id is the stored winner id (the first such player of the list), and
    [undefined] when no player of the game has that id; it never fails and
    never keeps the raw id. *)
Theorem getLastFinishedRound_winner_resolved
    (id : string) (players : list Player) (round : OpenRound) (finished : bool)
    (deck : Deck) (older : list FinishedRound) (r : FinishedRound) :
  ∃ res,
    getLastFinishedRound (mkGame id players round (older ++ [r]) finished deck)
    = Some res
    ∧ ((∃ p before after,
          round_winner res = Some p
          ∧ players = before ++ p :: after
          ∧ player_id p = round_winner r
          ∧ ∀ q, q ∈ before → player_id q ≠ round_winner r)
       ∨ (round_winner res = None
          ∧ ∀ q, q ∈ players → player_id q ≠ round_winner r)).
Proof.
  rewrite getLastFinishedRound_unfold. simpl. rewrite last_snoc. simpl.
  eexists. split; [reflexivity|]. simpl.
  pose proof (find_first_split
                (fun p => String.eqb (player_id p) (round_winner r)) players) as H.
  destruct (List.find _ players) as [p|].
  - left. destruct H as (before & after & -> & Hp & Hbefore).
    exists p, before, after. split; [reflexivity|]. split; [reflexivity|].
    split; [by apply String.eqb_eq|].
    intros q Hq. apply String.eqb_neq. auto.
  - right. split; [reflexivity|].
    intros q Hq. apply String.eqb_neq. auto.
Qed.

(** ** The dispatcher: failures *)

(** C3.  When the listener of an inbound command throws, [handleMessage]
    adds exactly one event to what the listener had emitted before the
    failure: an ['error'] carrying the text of the failure, addressed to
    the originating connection.  Nothing is sent to a room, and the rest of
    the server state is as the failing listener left it. *)
Theorem handleMessage_error_private
    (socket_id key : string) (listener : Data -> Io unit) (data : Data)
    (w w' : World) (err : string) :
  listener data w = (Throw err, w') →
  let w2 := handleMessage socket_id key listener data w in
  w_log w2
  = w_log w' ++ [mkEmitted (w_now w') (ToSocket socket_id) "error"
                           (PText (error_text key err))]
  ∧ (∀ e, e ∈ drop (length (w_log w')) (w_log w2) →
          em_target e = ToSocket socket_id ∧ em_event e = "error"
          ∧ ∀ room, em_target e ≠ ToRoom room)
  ∧ w_db w2 = w_db w' ∧ w_heap w2 = w_heap w'
  ∧ w_rooms w2 = w_rooms w' ∧ w_timers w2 = w_timers w'.
Proof.
  intros Hthrow. unfold handleMessage. rewrite Hthrow. simpl.
  split; [reflexivity|]. split; [|done].
  intros e. rewrite drop_app_length. intros He.
  apply list_elem_of_singleton in He as ->. simpl. done.
Qed.

(** A listener of the dispatcher that throws has emitted nothing: every
    emit of a listener comes after the last call that can fail. *)
Lemma listener_throw_silent `{ops : GameClass.Ops}
    (socket_id key : string) (listener : Data -> Io unit) (data : Data)
    (w w' : World) (err : string) :
  listener_of socket_id key = Some listener →
  listener data w = (Throw err, w') →
  w_log w' = w_log w ∧ w_now w' = w_now w ∧ w_heap w' = w_heap w
  ∧ w_db w' = w_db w ∧ w_timers w' = w_timers w.
Proof.
  unfold listener_of. intros Hl.
  repeat case_match; simplify_eq/=;
    unfold on_join, on_leave, on_start, on_play_white_cards,
      on_discard_white_card, on_reveal_card, on_finish_round,
      join_body, leave_body, play_white_cards_body, discard_white_card_body,
      reveal_card_body, finish_round_body, field, db_getGame, invoke,
      mbind, Io_bind, mret, Io_ret, throw, emit, setTimeout, socket_join,
      db_removeGame;
    intros Hrun; repeat (case_match; simplify_eq/=); done.
Qed.

(** ** Timers *)

Lemma elem_of_enqueue (t x : Timer) (queue : list Timer) :
  x ∈ enqueue t queue ↔ x = t ∨ x ∈ queue.
Proof.
  induction queue as [|t' rest IH]; simpl.
  - rewrite list_elem_of_singleton, elem_of_nil. tauto.
  - case_match; rewrite !elem_of_cons; [tauto|]. rewrite IH. tauto.
Qed.

(** [enqueue] files a timer behind those that are due no later. *)
Lemma enqueue_split (t : Timer) (queue : list Timer) :
  ∃ pre post,
    enqueue t queue = pre ++ t :: post
    ∧ ∀ x, x ∈ pre → timer_due x ≤ timer_due t.
Proof.
  induction queue as [|t' rest IH]; simpl.
  - exists [], []. split; [reflexivity|]. intros x Hx. inversion Hx.
  - destruct (Nat.ltb_spec (timer_due t) (timer_due t')) as [Hlt|Hge].
    + exists [], (t' :: rest). split; [reflexivity|]. intros x Hx. inversion Hx.
    + destruct IH as (pre & post & -> & Hpre).
      exists (t' :: pre), post. split; [reflexivity|].
      intros x Hx. apply elem_of_cons in Hx as [->|Hx]; auto.
Qed.

Section TimerFacts.
Context {ops : GameClass.Ops}.


Lemma fire_frame (x : Timer) (w : World) :
  w_heap (fire x w) = w_heap w ∧ w_db (fire x w) = w_db w
  ∧ w_timers (fire x w) = w_timers w
  ∧ w_now (fire x w) = Nat.max (w_now w) (timer_due x)
  ∧ ∃ l, w_log (fire x w) = w_log w ++ l.
Proof.
  unfold fire, on_timeout. destruct (timer_task x) as [room ref]. simpl.
  destruct (w_heap w !! ref); simpl.
  - repeat split; eauto.
  - repeat split. exists []. by rewrite app_nil_r.
Qed.

Lemma fire_all_frame (xs : list Timer) (w : World) :
  let w' := foldl (fun w tm => fire tm w) w xs in
  w_heap w' = w_heap w ∧ w_timers w' = w_timers w
  ∧ (∀ bound, w_now w ≤ bound → (∀ x, x ∈ xs → timer_due x ≤ bound) →
              w_now w' ≤ bound)
  ∧ ∃ l, w_log w' = w_log w ++ l.
Proof.
  revert w. induction xs as [|x xs IH]; intros w; simpl.
  - repeat split; auto. exists []. by rewrite app_nil_r.
  - destruct (IH (fire x w)) as (Hheap & Htimers & Hnow & l & Hlog).
    destruct (fire_frame x w) as (Hh1 & _ & Ht1 & Hn1 & l1 & Hl1).
    split; [congruence|]. split; [congruence|]. split.
    + intros bound Hw Hxs. apply Hnow.
      * rewrite Hn1. pose proof (Hxs x (list_elem_of_here _ _)). lia.
      * intros y Hy. apply Hxs. by apply list_elem_of_further.
    + exists (l1 ++ l). rewrite Hlog, Hl1. by rewrite app_assoc.
Qed.

(** What the announcement's callback emits when it runs. *)
Lemma fire_round_winner (tm : Timer) (room : string) (ref : nat) (g : Game)
    (w : World) :
  timer_task tm = RoundWinner room ref →
  w_heap w !! ref = Some g →
  w_log (fire tm w)
  = w_log w ++ [mkEmitted (Nat.max (w_now w) (timer_due tm)) (ToRoom room)
                          "game:round-winner"
                          (PRound (GameClass.getLastFinishedRound g))].
Proof.
  intros Htask Hg. unfold fire, on_timeout. rewrite Htask. simpl. rewrite Hg.
  reflexivity.
Qed.

(** A pending announcement whose time has come is emitted when the clock
    advances, whatever the store holds then. *)
Lemma advance_round_winner (t : nat) (tm : Timer) (pre post : list Timer)
    (room : string) (ref : nat) (g : Game) (w : World) :
  w_timers w = pre ++ tm :: post →
  timer_due tm ≤ t →
  timer_task tm = RoundWinner room ref →
  w_heap w !! ref = Some g →
  ∃ mid after time,
    w_log (advance t w)
    = w_log w ++ mid
      ++ [mkEmitted time (ToRoom room) "game:round-winner"
                    (PRound (GameClass.getLastFinishedRound g))]
      ++ after
    ∧ timer_due tm ≤ time
    ∧ (w_now w ≤ timer_due tm →
       (∀ x, x ∈ pre → timer_due x ≤ timer_due tm) → time = timer_due tm).
Proof.
  intros Hq Hdue Htask Hg. unfold advance. rewrite Hq.
  set (w0 := set_timers _ w).
  rewrite filter_app. rewrite filter_cons_True by exact Hdue.
  rewrite foldl_app. simpl.
  set (wa := foldl (fun w tm => fire tm w) w0 (filter _ pre)).
  destruct (fire_all_frame (filter (fun x => timer_due x ≤ t) pre) w0)
    as (Hheap & _ & Hnow & mid & Hlog).
  fold wa in Hheap, Hnow, Hlog.
  destruct (fire_all_frame (filter (fun x => timer_due x ≤ t) post) (fire tm wa))
    as (_ & _ & _ & after & Hlog2).
  exists mid, after, (Nat.max (w_now wa) (timer_due tm)).
  split; [|split].
  - rewrite Hlog2.
    rewrite (fire_round_winner tm room ref g wa Htask) by (by rewrite Hheap).
    rewrite Hlog. subst w0. simpl. by rewrite <- !app_assoc.
  - lia.
  - intros Hw Hpre.
    assert (w_now wa ≤ timer_due tm); [|lia].
    apply Hnow; [done|].
    intros x Hx. apply list_elem_of_filter in Hx as [_ Hx]. auto.
Qed.

Lemma advance_frame (t : nat) (w : World) :
  w_heap (advance t w) = w_heap w
  ∧ w_timers (advance t w) = filter (fun tm => ¬ timer_due tm ≤ t) (w_timers w).
Proof.
  unfold advance.
  destruct (fire_all_frame (filter (fun tm => timer_due tm ≤ t) (w_timers w))
              (set_timers (filter (fun tm => ¬ timer_due tm ≤ t) (w_timers w)) w))
    as (Hheap & Htimers & _).
  simpl in *. auto.
Qed.

End TimerFacts.

(** ** What no listener touches: pending timers and live objects *)

Lemma keeps_ret {A} (a : A) : keeps (mret a).
Proof. intros w r w' [= <- <-]. auto. Qed.

Lemma keeps_throw {A} (msg : string) : keeps (@throw A msg).
Proof. intros w r w' [= <- <-]. auto. Qed.

Lemma keeps_bind {A B} (m : Io A) (k : A -> Io B) :
  keeps m → (∀ a, keeps (k a)) → keeps (m ≫= k).
Proof.
  intros Hm Hk w r w'. unfold mbind, Io_bind.
  destruct (m w) as [[a|msg] w1] eqn:Hmw; intros Hrun.
  - destruct (Hm _ _ _ Hmw) as [Ht Hh], (Hk a _ _ _ Hrun) as [Ht' Hh'].
    split; [auto|congruence].
  - simplify_eq. eauto.
Qed.

Lemma keeps_field (name : string) (data : Data) : keeps (field name data).
Proof.
  unfold field. repeat case_match; auto using keeps_ret, keeps_throw.
Qed.

Lemma keeps_emit (to : Target) (event : string) (payload : Payload) :
  keeps (emit to event payload).
Proof. intros w r w' [= <- <-]. auto. Qed.

Lemma keeps_socket_join (socket_id room : string) :
  keeps (socket_join socket_id room).
Proof. intros w r w' [= <- <-]. auto. Qed.

Lemma keeps_setTimeout (task : Task) (delay : nat) : keeps (setTimeout task delay).
Proof.
  intros w r w' [= <- <-]. simpl. split; [|done].
  intros tm Htm. apply elem_of_enqueue. auto.
Qed.

Lemma keeps_db_getGame (gameId : Val) : keeps (db_getGame gameId).
Proof.
  intros w r w'. unfold db_getGame.
  repeat case_match; intros [= <- <-]; auto.
Qed.

Lemma keeps_db_removeGame (game : Game) : keeps (db_removeGame game).
Proof. intros w r w' [= <- <-]. auto. Qed.

Lemma keeps_invoke (ref : nat) (method : Game -> Result Game) :
  keeps (invoke ref method).
Proof.
  intros w r w'. unfold invoke.
  repeat case_match; intros [= <- <-]; simpl; auto using length_insert.
Qed.

#[export] Hint Resolve keeps_ret keeps_throw keeps_field keeps_emit
  keeps_socket_join keeps_setTimeout keeps_db_getGame keeps_db_removeGame
  keeps_invoke : keeps.

Ltac keeps_steps :=
  repeat first
    [ apply keeps_bind; [solve [auto with keeps]|intros ?]
    | case_match
    | solve [auto with keeps] ].

Section Frame.
Context {ops : GameClass.Ops}.

Lemma keeps_listener (socket_id key : string) (listener : Data -> Io unit)
    (data : Data) :
  listener_of socket_id key = Some listener → keeps (listener data).
Proof.
  unfold listener_of. intros Hl.
  repeat case_match; simplify_eq;
    unfold on_join, on_leave, on_start, on_play_white_cards,
      on_discard_white_card, on_reveal_card, on_finish_round,
      join_body, leave_body, play_white_cards_body, discard_white_card_body,
      reveal_card_body, finish_round_body;
    keeps_steps.
Qed.

Lemma receive_frame (socket_id : string) (msg : string * Data) (w : World) :
  (∀ tm, tm ∈ w_timers w → tm ∈ w_timers (receive socket_id msg w))
  ∧ length (w_heap (receive socket_id msg w)) = length (w_heap w).
Proof.
  unfold receive. destruct (listener_of socket_id msg.1) as [listener|] eqn:Hl;
    [|auto].
  unfold handleMessage.
  destruct (listener msg.2 w) as [[[]|err] w1] eqn:Hrun;
    destruct (keeps_listener _ _ _ _ Hl _ _ _ Hrun); auto.
Qed.

(** Nothing in a run takes a pending timer off the queue before it is
    due, and no object a timer holds goes away. *)
Lemma run_frame (steps : list Step) (tm : Timer) (ref : nat) (w : World) :
  (∀ t, Wait t ∈ steps → t < timer_due tm) →
  tm ∈ w_timers w →
  is_Some (w_heap w !! ref) →
  tm ∈ w_timers (run steps w) ∧ is_Some (w_heap (run steps w) !! ref).
Proof.
  revert w. induction steps as [|s steps IH]; intros w Hwait Htm Href; [done|].
  change (run (s :: steps) w) with (run steps (step s w)). apply IH.
  - intros t Ht. apply Hwait. by apply list_elem_of_further.
  - destruct s as [socket_id msg|t]; cbn [step].
    + by apply receive_frame.
    + destruct (advance_frame t w) as [_ ->].
      apply list_elem_of_filter. split; [|done].
      pose proof (Hwait t (list_elem_of_here _ _)). lia.
  - apply lookup_lt_is_Some. apply lookup_lt_is_Some in Href.
    destruct s as [socket_id msg|t]; cbn [step].
    + destruct (receive_frame socket_id msg w) as [_ ->]. done.
    + destruct (advance_frame t w) as [-> _]. done.
Qed.

End Frame.

(** ** The dispatcher: finishing a round *)

Section FinishRound.
Context {ops : GameClass.Ops}.

Lemma finish_round_run (socket_id : string) (fields : list (string * Val))
    (id : string) (ref : nat) (g g' : Game) (w : World) :
  get_field "gameId" fields = VStr id →
  w_db w !! id = Some ref →
  w_heap w !! ref = Some g →
  GameClass.finishRound g (get_field "winnerPlayerId" fields) = Ok g' →
  receive socket_id ("game:finish-round", DObj fields) w
  = mkWorld (w_now w) (w_db w) (<[ref := g']> (w_heap w)) (w_rooms w)
      (w_log w ++ [mkEmitted (w_now w) (ToRoom (room_of (VStr id))) "game:edit"
                             (PGame g')])
      (enqueue (mkTimer (w_now w + 500) (RoundWinner (room_of (VStr id)) ref))
               (w_timers w)).
Proof.
  intros Hid Hdb Hheap Hfinish.
  unfold receive, handleMessage. cbn [fst snd listener_of String.eqb].
  change (listener_of socket_id "game:finish-round") with (Some (on_finish_round)).
  unfold on_finish_round, field, finish_round_body, db_getGame, invoke,
    mbind, Io_bind, mret, Io_ret.
  rewrite Hid. cbn [w_db]. rewrite Hdb. cbn [w_heap]. rewrite Hheap, Hfinish.
  reflexivity.
Qed.

(** C4.  A finish-round command that succeeds emits the room-wide
    ['game:edit'] with the state after [finishRound] at once, and schedules
    the room-wide ['game:round-winner']: it is pending until 500 ms have
    passed, and when the clock reaches that time it is emitted, after the
    ['game:edit'], carrying [getLastFinishedRound] of the same game. *)
Theorem finish_round_edit_then_winner (socket_id : string)
    (fields : list (string * Val)) (id : string) (ref : nat) (g g' : Game)
    (w : World) :
  get_field "gameId" fields = VStr id →
  w_db w !! id = Some ref →
  w_heap w !! ref = Some g →
  GameClass.finishRound g (get_field "winnerPlayerId" fields) = Ok g' →
  let room := ToRoom (room_of (VStr id)) in
  let due := w_now w + 500 in
  let announcement := mkTimer due (RoundWinner (room_of (VStr id)) ref) in
  let w1 := receive socket_id ("game:finish-round", DObj fields) w in
  w_log w1 = w_log w ++ [mkEmitted (w_now w) room "game:edit" (PGame g')]
  ∧ announcement ∈ w_timers w1
  ∧ (∀ t, t < due → announcement ∈ w_timers (advance t w1))
  ∧ ∃ mid after,
      w_log (advance due w1)
      = w_log w ++ [mkEmitted (w_now w) room "game:edit" (PGame g')] ++ mid
        ++ [mkEmitted due room "game:round-winner"
                      (PRound (GameClass.getLastFinishedRound g'))]
        ++ after.
Proof.
  intros Hid Hdb Hheap Hfinish room due announcement w1.
  assert (Hw1 : w1 = _) by exact (finish_round_run socket_id _ _ _ _ _ _
                                    Hid Hdb Hheap Hfinish).
  assert (Hin : announcement ∈ w_timers w1).
  { rewrite Hw1. cbn [w_timers]. apply elem_of_enqueue. by left. }
  split; [by rewrite Hw1|]. split; [done|]. split.
  - intros t Ht. destruct (advance_frame t w1) as [_ ->].
    apply list_elem_of_filter. split; [|done]. subst announcement. simpl. lia.
  - destruct (enqueue_split announcement (w_timers w)) as (pre & post & Hq & Hpre).
    destruct (advance_round_winner due announcement pre post
                (room_of (VStr id)) ref g' w1) as (mid & after & time & Hlog & _ & Htime).
    + rewrite Hw1. exact Hq.
    + done.
    + done.
    + rewrite Hw1. cbn [w_heap]. apply list_lookup_insert_eq.
      by eapply lookup_lt_Some.
    + exists mid, after. rewrite Hlog.
      rewrite Htime; [|rewrite Hw1; simpl; lia|exact Hpre].
      rewrite Hw1. cbn [w_log]. by rewrite <- !app_assoc.
Qed.

End FinishRound.

(** ** The announcement outlives the session *)

Section Announcement.
Context {ops : GameClass.Ops}.

(** C5 (as the code has it).  The announcement is a one-shot that nothing
    cancels.  Through every run of commands and of waits shorter than its
    delay (the leave that removes the game from the store included) it
    stays pending and its game object stays alive, so that its callback
    does not throw; when the clock reaches its due time it is emitted to
    the room, with [getLastFinishedRound] of the object as it is then, and
    it is off the queue afterwards. *)
Theorem round_winner_outlives_session (tm : Timer) (room : string) (ref : nat)
    (steps : list Step) (w : World) :
  tm ∈ w_timers w →
  timer_task tm = RoundWinner room ref →
  is_Some (w_heap w !! ref) →
  (∀ t, Wait t ∈ steps → t < timer_due tm) →
  let w' := run steps w in
  tm ∈ w_timers w'
  ∧ ∃ g, w_heap w' !! ref = Some g
      ∧ (on_timeout (timer_task tm) w').1 = Ok tt
      ∧ ∀ t, timer_due tm ≤ t →
          (tm ∉ w_timers (advance t w'))
          ∧ ∃ mid after time,
              w_log (advance t w')
              = w_log w' ++ mid
                ++ [mkEmitted time (ToRoom room) "game:round-winner"
                              (PRound (GameClass.getLastFinishedRound g))]
                ++ after.
Proof.
  intros Htm Htask Href Hwait w'.
  destruct (run_frame steps tm ref w Hwait Htm Href) as [Htm' [g Hg]].
  split; [done|]. exists g. split; [done|]. split.
  { rewrite Htask. unfold on_timeout. subst w'. by rewrite Hg. }
  intros t Ht. split.
  - destruct (advance_frame t w') as [_ ->].
    rewrite list_elem_of_filter. tauto.
  - apply list_elem_of_split in Htm' as (pre & post & Hq).
    destruct (advance_round_winner t tm pre post room ref g w' Hq Ht Htask Hg)
      as (mid & after & time & Hlog & _).
    eauto.
Qed.

End Announcement.

(** ** The round as a client shows it *)

Lemma push_card_cards (players : list (string * list WhiteCard))
    (card : WhiteCard) (grp : string * list WhiteCard) (c : WhiteCard) :
  grp ∈ push_card players card → c ∈ grp.2 →
  c = card ∨ ∃ grp', grp' ∈ players ∧ c ∈ grp'.2.
Proof.
  induction players as [|[p cs] rest IH]; simpl.
  - intros ->%list_elem_of_singleton Hc. simpl in Hc.
    apply list_elem_of_singleton in Hc. by left.
  - destruct (String.eqb p (wc_player card)).
    + intros [->|Hgrp]%elem_of_cons Hc.
      * simpl in Hc. apply elem_of_app in Hc as [Hc|Hc%list_elem_of_singleton].
        -- right. exists (p, cs). split; [apply list_elem_of_here|done].
        -- by left.
      * right. exists grp. split; [by apply list_elem_of_further|done].
    + intros [->|Hgrp]%elem_of_cons Hc.
      * right. exists (p, cs). split; [apply list_elem_of_here|done].
      * destruct (IH Hgrp Hc) as [->|(grp' & Hgrp' & Hc')]; [by left|].
        right. exists grp'. split; [by apply list_elem_of_further|done].
Qed.

Lemma group_cards_Some (cards : list WhiteCard)
    (players groups : list (string * list WhiteCard)) :
  group_cards players cards = Some groups →
  groups = foldl push_card players cards
  ∧ ∀ c, c ∈ cards → wc_player c ∉ Object_prototype.
Proof.
  revert players. induction cards as [|card cards IH]; intros players; simpl.
  - intros [= ->]. split; [done|]. intros c Hc. inversion Hc.
  - unfold inherited. case_bool_decide as Hkey; [done|].
    intros [-> Hcards]%IH. split; [done|].
    intros c [->|Hc]%elem_of_cons; auto.
Qed.

Lemma group_cards_None (cards : list WhiteCard)
    (players : list (string * list WhiteCard)) :
  group_cards players cards = None →
  ∃ c, c ∈ cards ∧ wc_player c ∈ Object_prototype.
Proof.
  revert players. induction cards as [|card cards IH]; intros players; simpl.
  - done.
  - unfold inherited. case_bool_decide as Hkey.
    + intros _. exists card. split; [apply list_elem_of_here|done].
    + intros (c & Hc & Hin)%IH. exists c.
      split; [by apply list_elem_of_further|done].
Qed.

Lemma insert_by_index_perm {A} (x : string * A) (l : list (string * A)) :
  insert_by_index x l ≡ₚ x :: l.
Proof.
  induction l as [|y l IH]; simpl; [done|].
  destruct (index_le x.1 y.1); [done|].
  rewrite IH. apply perm_swap.
Qed.

Lemma Object_values_perm {A} (props : list (string * A)) :
  Object_values props ≡ₚ props.
Proof.
  unfold Object_values.
  transitivity (List.filter (fun kv : string * A => is_index kv.1) props
                ++ List.filter (fun kv : string * A => negb (is_index kv.1)) props).
  - apply Permutation_app_tail.
    induction (List.filter (fun kv : string * A => is_index kv.1) props)
      as [|x l IH]; simpl; [done|].
    rewrite insert_by_index_perm. by rewrite IH.
  - induction props as [|x props IH]; simpl; [done|].
    destruct (is_index x.1); simpl.
    + by rewrite IH.
    + rewrite <- Permutation_middle. by rewrite IH.
Qed.

Lemma groupCardsByPlayer_Some (cards : list WhiteCard)
    (groups : list (string * list WhiteCard)) :
  groupCardsByPlayer cards = Some groups →
  groups ≡ₚ foldl push_card [] cards
  ∧ ∀ c, c ∈ cards → wc_player c ∉ Object_prototype.
Proof.
  unfold groupCardsByPlayer.
  destruct (group_cards [] cards) as [players|] eqn:Hloop; [|done].
  intros [= <-]. apply group_cards_Some in Hloop as [-> Hkeys].
  split; [apply Object_values_perm|done].
Qed.

Lemma groupCardsByPlayer_None (cards : list WhiteCard) :
  groupCardsByPlayer cards = None →
  ∃ c, c ∈ cards ∧ wc_player c ∈ Object_prototype.
Proof.
  unfold groupCardsByPlayer.
  destruct (group_cards [] cards) as [players|] eqn:Hloop; [done|].
  intros _. by eapply group_cards_None.
Qed.

Lemma groupCardsByPlayer_cards (cards : list WhiteCard)
    (groups : list (string * list WhiteCard))
    (grp : string * list WhiteCard) (c : WhiteCard) :
  groupCardsByPlayer cards = Some groups →
  grp ∈ groups → c ∈ grp.2 → c ∈ cards.
Proof.
  intros [Hperm _]%groupCardsByPlayer_Some. rewrite Hperm. clear Hperm.
  assert (∀ acc, grp ∈ foldl push_card acc cards → c ∈ grp.2 →
                 c ∈ cards ∨ ∃ grp', grp' ∈ acc ∧ c ∈ grp'.2) as Hgen.
  { induction cards as [|card cards IH]; intros acc; simpl.
    - intros Hgrp Hc. right. eauto.
    - intros Hgrp Hc. destruct (IH _ Hgrp Hc) as [Hin|(grp' & Hgrp' & Hc')].
      + left. by apply list_elem_of_further.
      + destruct (push_card_cards _ _ _ _ Hgrp' Hc') as [->|Hacc].
        * left. apply list_elem_of_here.
        * by right. }
  intros Hgrp Hc. destruct (Hgen [] Hgrp Hc) as [Hin|(grp' & Hgrp' & _)]; [done|].
  inversion Hgrp'.
Qed.

(** C1 (as the code has it).  Whatever game state a broadcast delivered
    and whoever looks at it, the judge or any other player, each card that
    the [Round] component renders for the round in play is shown either as
    the mark for hidden cards or as the decoded text of a submission of
    that round whose [hidden] flag is false: [Round] never puts the text of
    a hidden submission on the screen. *)
Theorem hidden_cards_masked_in_view (decodeHtml : string -> string) (v : View)
    (groups : list GroupView) (gv : GroupView) (cv : CardView) :
  view_round decodeHtml v = Some groups →
  gv ∈ groups →
  cv ∈ gv_cards gv →
  cv_text cv = hidden_mark
  ∨ ∃ c, c ∈ round_whiteCards (game_round (view_game v))
         ∧ wc_hidden c = false
         ∧ cv_text cv = decodeHtml (wc_card c).
Proof.
  unfold view_round, Round.
  destruct (allCardsSent v); [|intros [= <-]; by inversion 1].
  destruct (groupCardsByPlayer _) as [gs|] eqn:Hgs; [|done].
  intros [= <-] (grp & -> & Hgrp)%list_elem_of_fmap. simpl.
  intros (c & -> & Hc)%list_elem_of_fmap. simpl.
  unfold card_text. destruct (wc_hidden c) eqn:Hhidden; [by left|].
  right. exists c. split; [|done].
  by eapply groupCardsByPlayer_cards.
Qed.

(** The theorem at C's screen once B and C have both submitted: B's
    card shows as the mark. *)
Lemma hidden_cards_masked_in_view_witness :
  cv_text (mkCardView hidden_mark false) = hidden_mark
  ∨ ∃ c, c ∈ round_whiteCards
               (game_round (view_game (Example.view_of "C" Example.world2c)))
         ∧ wc_hidden c = false
         ∧ cv_text (mkCardView hidden_mark false) = wc_card c.
Proof.
  apply (hidden_cards_masked_in_view (fun s => s)
           (Example.view_of "C" Example.world2c)
           [mkGroupView "B" false [mkCardView hidden_mark false];
            mkGroupView "C" false [mkCardView hidden_mark false]]
           (mkGroupView "B" false [mkCardView hidden_mark false])
           (mkCardView hidden_mark false)).
  - vm_compute. reflexivity.
  - apply list_elem_of_here.
  - apply list_elem_of_here.
Defined.

(** C1, counterexample.  B submits "b1" in a game judged by A.  The
    ['game:edit'] that follows goes to the room with the submission in it,
    hidden flag set and text in the clear, and so does the
    ['game:cards-played'] signal with the cards just played; C, who is in
    the room and is neither the judge nor the submitter, gets both. *)
Lemma hidden_text_reaches_other_players :
  let edit := mkEmitted 0 (ToRoom "game-g1") "game:edit"
                        (PGame (Example.game_in Example.world2)) in
  let played := mkEmitted 0 (ToRoom "game-g1") "game:cards-played"
                          (PVal (VCards ["b1"])) in
  w_log Example.world2 = [edit; played]
  ∧ receives_hidden_text Example.world2 "C" edit (mkWhiteCard "B" "b1" true)
  ∧ receives Example.world2 "C" played.
Proof.
  assert (Hroom : ("game-g1", "C") ∈ w_rooms Example.world2).
  { apply (bool_decide_unpack _). vm_compute. exact I. }
  split; [vm_compute; reflexivity|]. split; [|exact Hroom].
  split; [exact Hroom|].
  exists (Example.game_in Example.world2). split; [reflexivity|].
  split; [vm_compute; discriminate|].
  split; [vm_compute; apply list_elem_of_here|].
  split; [reflexivity|discriminate].
Qed.

(** The theorem at a leave whose payload is the bare game id. *)
Lemma handleMessage_error_private_witness :
  w_log (handleMessage "A" "game:leave" (@on_leave SpecGame.ops)
           (DVal (VStr "g1")) Example.world1)
  = w_log Example.world1
    ++ [mkEmitted 0 (ToSocket "A") "error"
                  (PText (error_text "game:leave" "GameNotFound"))].
Proof.
  apply (handleMessage_error_private "A" "game:leave" (@on_leave SpecGame.ops)
           (DVal (VStr "g1")) Example.world1 Example.world1 "GameNotFound").
  vm_compute. reflexivity.
Defined.

(** The theorem at the judge's finish-round for B, after B and C have
    submitted. *)
Lemma finish_round_edit_then_winner_witness :
  w_log Example.world3
  = w_log Example.world2c
    ++ [mkEmitted 0 (ToRoom "game-g1") "game:edit"
                  (PGame (Example.game_in Example.world3))]
  ∧ mkTimer 500 (RoundWinner "game-g1" 0) ∈ w_timers Example.world3.
Proof.
  destruct (finish_round_edit_then_winner (ops := SpecGame.ops) "A"
              [("gameId", VStr "g1"); ("winnerPlayerId", VStr "B")]
              "g1" 0 (Example.game_in Example.world2c)
              (Example.game_in Example.world3) Example.world2c)
    as (Hlog & Htimer & _).
  - reflexivity.
  - vm_compute. reflexivity.
  - vm_compute. reflexivity.
  - vm_compute. reflexivity.
  - split; [exact Hlog|exact Htimer].
Defined.

(** C5, counterexample.  The round is finished at time 0; 100 ms later
    all three players leave and the last leave removes the game from the
    store.  The announcement is still on the queue, and at 500 ms it is
    emitted to the room. *)
Lemma announcement_emitted_after_removal :
  w_db Example.world4 !! "g1" = None
  ∧ game_players (Example.game_in Example.world4) = []
  ∧ w_timers Example.world4 = [mkTimer 500 (RoundWinner "game-g1" 0)]
  ∧ w_log Example.world5
    = w_log Example.world4
      ++ [mkEmitted 500 (ToRoom "game-g1") "game:round-winner"
            (PRound (Some (mkRound (Some "A") (mkBlackCard "Why?" 1)
                             [mkWhiteCard "B" "b1" true;
                              mkWhiteCard "C" "c1" true] "B")))].
Proof.
  split; [|split; [|split]]; vm_compute; reflexivity.
Qed.

(** The theorem at the run in which everybody leaves 100 ms after the
    round was finished. *)
Lemma round_winner_outlives_session_witness :
  mkTimer 500 (RoundWinner "game-g1" 0) ∈ w_timers Example.world4.
Proof.
  apply (round_winner_outlives_session (ops := SpecGame.ops)
           (mkTimer 500 (RoundWinner "game-g1" 0)) "game-g1" 0
           Example.everybody_leaves Example.world3).
  - vm_compute. apply list_elem_of_here.
  - reflexivity.
  - vm_compute. eexists. reflexivity.
  - intros t Ht. unfold Example.everybody_leaves in Ht.
    repeat (apply elem_of_cons in Ht as [Ht|Ht];
            [first [discriminate Ht|injection Ht as ->; simpl; lia]|]).
    inversion Ht.
Defined.

(** ** The view's messages, as the dispatcher reads them *)

Section ViewToServer.
Context {ops : GameClass.Ops}.
Variable socket_id : string.

(** C7 (the defect).  The view's submit message has a game id and the
    cards and no [playerId]; the listener it reaches binds [playerId] to
    [undefined], and that is what [playWhiteCards] is called with. *)
Theorem playCards_gives_no_playerId (v : View) (cards : list string) :
  listener_of socket_id (playCards v cards).1 = Some on_play_white_cards
  ∧ on_play_white_cards (playCards v cards).2
    = play_white_cards_body
        (VStr (game_id (view_game v))) (VCards cards) VUndefined.
Proof. split; reflexivity. Qed.

(** C8 (the defect).  The view's discard message names the card [card];
    the listener reads [cards] and [playerId], so both arguments of
    [discardWhiteCard] are [undefined]. *)
Theorem discardWhiteCards_gives_no_card (v : View) (card : string) :
  listener_of socket_id (discardWhiteCards v card).1 = Some on_discard_white_card
  ∧ on_discard_white_card (discardWhiteCards v card).2
    = discard_white_card_body
        (VStr (game_id (view_game v))) VUndefined VUndefined.
Proof. split; reflexivity. Qed.

(** C9 (the defect).  The view's leave message is the bare game id; the
    listener destructures it as an object, so [gameId] and [playerId] are
    both [undefined]: the store is asked for no game, the command fails
    with the private error, and no player is removed from any game. *)
Theorem closeGameOverModal_names_no_game (v : View) (w : World) :
  listener_of socket_id (closeGameOverModal v).1 = Some on_leave
  ∧ on_leave (closeGameOverModal v).2 = leave_body VUndefined VUndefined
  ∧ receive socket_id (closeGameOverModal v) w
    = mkWorld (w_now w) (w_db w) (w_heap w) (w_rooms w)
        (w_log w ++ [mkEmitted (w_now w) (ToSocket socket_id) "error"
                               (PText (error_text "game:leave" "GameNotFound"))])
        (w_timers w).
Proof. repeat split; reflexivity. Qed.

(** What the listeners do with a payload of the shape they read. *)

(** X12.  A submit message of the shape the listener reads, for a game
    of the store, makes it call [playWhiteCards] with the message's [cards]
    and [playerId]; when that succeeds the object is updated and the room
    gets ['game:edit'] with the new state and then ['game:cards-played']
    with the cards as they were sent. *)
Lemma play_white_cards_run (fields : list (string * Val)) (id : string)
    (ref : nat) (g g' : Game) (w : World) :
  get_field "gameId" fields = VStr id →
  w_db w !! id = Some ref →
  w_heap w !! ref = Some g →
  GameClass.playWhiteCards g (get_field "cards" fields)
                           (get_field "playerId" fields) = Ok g' →
  receive socket_id ("game:play-white-cards", DObj fields) w
  = mkWorld (w_now w) (w_db w) (<[ref := g']> (w_heap w)) (w_rooms w)
      (w_log w
       ++ [mkEmitted (w_now w) (ToRoom (room_of (VStr id))) "game:edit" (PGame g');
           mkEmitted (w_now w) (ToRoom (room_of (VStr id))) "game:cards-played"
                     (PVal (get_field "cards" fields))])
      (w_timers w).
Proof.
  intros Hid Hdb Hheap Hplay.
  unfold receive, handleMessage. cbn [fst snd].
  change (listener_of socket_id "game:play-white-cards")
    with (Some on_play_white_cards).
  unfold on_play_white_cards, field, play_white_cards_body, db_getGame, invoke,
    mbind, Io_bind, mret, Io_ret.
  rewrite Hid. cbn [w_db]. rewrite Hdb. cbn [w_heap]. rewrite Hheap, Hplay.
  simpl. by rewrite <- app_assoc.
Qed.

Lemma discard_white_card_run (fields : list (string * Val)) (id : string)
    (ref : nat) (g g' : Game) (w : World) :
  get_field "gameId" fields = VStr id →
  w_db w !! id = Some ref →
  w_heap w !! ref = Some g →
  GameClass.discardWhiteCard g (get_field "cards" fields)
                             (get_field "playerId" fields) = Ok g' →
  receive socket_id ("game:discard-white-card", DObj fields) w
  = mkWorld (w_now w) (w_db w) (<[ref := g']> (w_heap w)) (w_rooms w)
      (w_log w
       ++ [mkEmitted (w_now w) (ToRoom (room_of (VStr id))) "game:edit" (PGame g')])
      (w_timers w).
Proof.
  intros Hid Hdb Hheap Hdiscard.
  unfold receive, handleMessage. cbn [fst snd].
  change (listener_of socket_id "game:discard-white-card")
    with (Some on_discard_white_card).
  unfold on_discard_white_card, field, discard_white_card_body, db_getGame,
    invoke, mbind, Io_bind, mret, Io_ret.
  rewrite Hid. cbn [w_db]. rewrite Hdb. cbn [w_heap]. rewrite Hheap, Hdiscard.
  reflexivity.
Qed.

(** X13.  A leave message of the shape the listener reads, for a game of
    the store, makes it call [removePlayer] with the message's [playerId];
    when that succeeds the room gets ['game:edit'] with the new state and
    then ['game:kick'] with the player id, and the game is taken out of the
    store, under its own id, exactly when its player list has become
    empty. *)
Lemma leave_run (fields : list (string * Val)) (id : string)
    (ref : nat) (g g' : Game) (w : World) :
  get_field "gameId" fields = VStr id →
  w_db w !! id = Some ref →
  w_heap w !! ref = Some g →
  GameClass.removePlayer g (get_field "playerId" fields) = Ok g' →
  receive socket_id ("game:leave", DObj fields) w
  = mkWorld (w_now w)
      (if decide (length (game_players g') = 0)
       then delete (game_id g') (w_db w) else w_db w)
      (<[ref := g']> (w_heap w)) (w_rooms w)
      (w_log w
       ++ [mkEmitted (w_now w) (ToRoom (room_of (VStr id))) "game:edit" (PGame g');
           mkEmitted (w_now w) (ToRoom (room_of (VStr id))) "game:kick"
                     (PVal (get_field "playerId" fields))])
      (w_timers w).
Proof.
  intros Hid Hdb Hheap Hremove.
  unfold receive, handleMessage. cbn [fst snd].
  change (listener_of socket_id "game:leave") with (Some on_leave).
  unfold on_leave, field, leave_body, db_getGame, invoke,
    mbind, Io_bind, mret, Io_ret.
  rewrite Hid. cbn [w_db]. rewrite Hdb. cbn [w_heap]. rewrite Hheap, Hremove.
  simpl. destruct (decide (length (game_players g') = 0)); simpl;
    by rewrite <- app_assoc.
Qed.

End ViewToServer.

(** * Further properties of the view *)

(** ** Grouping the submissions by player *)

Lemma filter_none {A} (P : A → Prop) `{∀ x, Decision (P x)} (l : list A) :
  (∀ x, x ∈ l → ¬ P x) → filter P l = [].
Proof.
  induction l as [|a l IH]; intros Hl; [done|].
  rewrite filter_cons_False by (apply Hl, list_elem_of_here).
  apply IH. intros x Hx. apply Hl. by apply list_elem_of_further.
Qed.

Lemma push_card_keys (players : list (string * list WhiteCard))
    (card : WhiteCard) :
  (push_card players card).*1
  = if decide (wc_player card ∈ players.*1) then players.*1
    else players.*1 ++ [wc_player card].
Proof.
  induction players as [|[p cs] rest IH]; [done|].
  cbn [push_card]. rewrite !fmap_cons. cbn [fst].
  destruct (String.eqb_spec p (wc_player card)) as [->|Hne].
  - rewrite fmap_cons. cbn [fst].
    rewrite decide_True; [done|]. apply list_elem_of_here.
  - rewrite fmap_cons. cbn [fst]. rewrite IH.
    destruct (decide (wc_player card ∈ rest.*1)) as [Hin|Hout].
    + rewrite decide_True; [done|]. by apply list_elem_of_further.
    + rewrite decide_False; [done|]. rewrite elem_of_cons. naive_solver.
Qed.

Lemma push_card_group (players : list (string * list WhiteCard))
    (card : WhiteCard) (p : string) (cs : list WhiteCard) :
  NoDup players.*1 →
  (p, cs) ∈ push_card players card →
  (p ≠ wc_player card ∧ (p, cs) ∈ players)
  ∨ (p = wc_player card
     ∧ ∃ cs0, cs = cs0 ++ [card]
              ∧ ((p, cs0) ∈ players ∨ (cs0 = [] ∧ p ∉ players.*1))).
Proof.
  induction players as [|[q qs] rest IH]; simpl.
  - intros _ [= -> ->]%list_elem_of_singleton. right. split; [done|].
    exists []. split; [done|]. right. split; [done|]. apply not_elem_of_nil.
  - intros [Hq Hrest]%NoDup_cons.
    destruct (String.eqb_spec q (wc_player card)) as [->|Hne].
    + intros [[= -> ->]|Hin]%elem_of_cons.
      * right. split; [done|]. exists qs. split; [done|]. left.
        apply list_elem_of_here.
      * left. split; [|by apply list_elem_of_further].
        intros ->. apply Hq. apply list_elem_of_fmap. by exists (wc_player card, cs).
    + intros [[= -> ->]|Hin]%elem_of_cons.
      * left. split; [done|]. apply list_elem_of_here.
      * destruct (IH Hrest Hin) as [[Hp Hin']|(-> & cs0 & -> & [Hin'|[-> Hout]])].
        -- left. split; [done|]. by apply list_elem_of_further.
        -- right. split; [done|]. exists cs0. split; [done|]. left.
           by apply list_elem_of_further.
        -- right. split; [done|]. exists []. split; [done|]. right.
           split; [done|]. rewrite elem_of_cons. naive_solver.
Qed.

Lemma push_card_concat (players : list (string * list WhiteCard))
    (card : WhiteCard) :
  concat (push_card players card).*2 ≡ₚ concat players.*2 ++ [card].
Proof.
  induction players as [|[q qs] rest IH]; simpl; [done|].
  destruct (String.eqb q (wc_player card)); simpl.
  - rewrite <- !app_assoc. apply Permutation_app_head. apply Permutation_app_comm.
  - rewrite IH. by rewrite app_assoc.
Qed.

Lemma grouped_push (cards : list WhiteCard)
    (groups : list (string * list WhiteCard)) (card : WhiteCard) :
  grouped cards groups → grouped (cards ++ [card]) (push_card groups card).
Proof.
  intros (Hnodup & Hgroups & Hkeys & Hperm). repeat split.
  - rewrite push_card_keys. case_decide; [done|].
    apply NoDup_app. split; [done|]. split; [|apply NoDup_singleton].
    intros x Hx Hk. apply list_elem_of_singleton in Hk as ->. done.
  - destruct (push_card_group _ _ _ _ Hnodup H)
      as [[Hp Hin]|(-> & cs0 & -> & _)]; [by apply Hgroups in Hin as [? _]|].
    by destruct cs0.
  - rewrite filter_app.
    destruct (push_card_group _ _ _ _ Hnodup H)
      as [[Hp Hin]|(-> & cs0 & -> & [Hin|[-> Hout]])].
    + rewrite filter_cons_False, filter_nil, app_nil_r by done.
      by apply Hgroups in Hin as [_ ?].
    + rewrite filter_cons_True, filter_nil by done.
      apply Hgroups in Hin as [_ <-]. done.
    + rewrite filter_cons_True, filter_nil by done. f_equal.
      symmetry. apply filter_none.
      intros c Hc Heq. apply Hout. rewrite <- Heq. auto.
  - intros c Hc. rewrite push_card_keys.
    apply elem_of_app in Hc as [Hc| ->%list_elem_of_singleton].
    + case_decide; [auto|]. apply elem_of_app. auto.
    + case_decide; [done|]. apply elem_of_app. right. apply list_elem_of_here.
  - rewrite push_card_concat. by rewrite Hperm.
Qed.

Lemma foldl_push_card_grouped (cards : list WhiteCard) :
  grouped cards (foldl push_card [] cards).
Proof.
  induction cards as [|card cards IH] using rev_ind.
  - split; [apply NoDup_nil_2|].
    split; [intros p cs Hin; inversion Hin|].
    split; [intros c Hc; inversion Hc|done].
  - rewrite foldl_app. by apply grouped_push.
Qed.

Lemma concat_snd_perm {A} (groups groups' : list (string * list A)) :
  groups ≡ₚ groups' → concat groups.*2 ≡ₚ concat groups'.*2.
Proof.
  induction 1 as [|g l l' _ IH|g g' l|l l' l'' _ IH _ IH']; simpl.
  - done.
  - by rewrite IH.
  - rewrite !app_assoc. apply Permutation_app_tail, Permutation_app_comm.
  - by rewrite IH.
Qed.

Lemma grouped_perm (cards : list WhiteCard)
    (groups groups' : list (string * list WhiteCard)) :
  groups' ≡ₚ groups → grouped cards groups → grouped cards groups'.
Proof.
  intros Hperm (Hnodup & Hgroups & Hkeys & Hall).
  split; [by rewrite Hperm|].
  split; [intros p cs Hin; apply Hgroups; by rewrite <- Hperm|].
  split; [intros c Hc; rewrite Hperm; by apply Hkeys|].
  by rewrite (concat_snd_perm _ _ Hperm).
Qed.

Lemma groupCardsByPlayer_grouped (cards : list WhiteCard)
    (groups : list (string * list WhiteCard)) :
  groupCardsByPlayer cards = Some groups → grouped cards groups.
Proof.
  intros [Hperm _]%groupCardsByPlayer_Some.
  eapply grouped_perm; [exact Hperm|]. apply foldl_push_card_grouped.
Qed.

(** Two runs.  Keys that are array indices are listed first, in ascending
    order, whenever they were created; and a player called [constructor]
    makes the grouping throw. *)
Lemma groupCardsByPlayer_examples :
  groupCardsByPlayer
    [mkWhiteCard "b" "b1" true; mkWhiteCard "10" "x1" true;
     mkWhiteCard "9" "y1" true; mkWhiteCard "b" "b2" true]
  = Some [("9", [mkWhiteCard "9" "y1" true]);
          ("10", [mkWhiteCard "10" "x1" true]);
          ("b", [mkWhiteCard "b" "b1" true; mkWhiteCard "b" "b2" true])]
  ∧ groupCardsByPlayer
      [mkWhiteCard "b" "b1" true; mkWhiteCard "constructor" "c1" true]
    = None.
Proof. split; reflexivity. Qed.

(** X1.  [groupCardsByPlayer] throws exactly when a card's player id names
    a property of [Object.prototype].  Otherwise it partitions the cards by
    player: no player has two groups, the group of a player holds exactly
    that player's cards in the order they were played and is never empty,
    every card's player has a group, and the groups together hold each card
    once. *)
Theorem groupCardsByPlayer_partition (cards : list WhiteCard) :
  match groupCardsByPlayer cards with
  | Some groups =>
      (∀ c, c ∈ cards → wc_player c ∉ Object_prototype)
      ∧ NoDup groups.*1
      ∧ (∀ p cs, (p, cs) ∈ groups →
           cs ≠ [] ∧ cs = filter (fun c => wc_player c = p) cards)
      ∧ (∀ c, c ∈ cards → wc_player c ∈ groups.*1)
      ∧ concat groups.*2 ≡ₚ cards
  | None => ∃ c, c ∈ cards ∧ wc_player c ∈ Object_prototype
  end.
Proof.
  destruct (groupCardsByPlayer cards) as [groups|] eqn:Hgroups.
  - split; [by apply groupCardsByPlayer_Some in Hgroups as [_ ?]|].
    by apply groupCardsByPlayer_grouped.
  - by apply groupCardsByPlayer_None.
Qed.



(** ** The card picker *)


Lemma selectCard_inv (n : nat) (selected : list string) (card : string) :
  1 ≤ n → NoDup selected → length selected ≤ n →
  NoDup (selectCard n selected card)
  ∧ length (selectCard n selected card) ≤ n
  ∧ ∀ x, x ∈ selectCard n selected card → x = card ∨ x ∈ selected.
Proof.
  intros Hn Hnodup Hlen. unfold selectCard, cardIsSelected.
  case_bool_decide as Hin.
  - split; [by apply NoDup_filter|]. split.
    + pose proof (length_filter (fun c => c ≠ card) selected). lia.
    + intros x [_ Hx]%list_elem_of_filter. by right.
  - unfold js_slice_last. destruct (Nat.eqb_spec n 0) as [->|_]; [lia|].
    assert (NoDup (selected ++ [card])) as Hnodup'.
    { apply NoDup_app. split; [done|]. split; [|apply NoDup_singleton].
      intros x Hx Hk. apply list_elem_of_singleton in Hk as ->. done. }
    split; [|split].
    + exact (sublist_NoDup _ _ Hnodup' (sublist_drop _ _)).
    + rewrite length_drop, length_app. simpl. lia.
    + intros x Hx. eapply elem_of_sublist in Hx; [|apply sublist_drop].
      apply elem_of_app in Hx as [Hx| ->%list_elem_of_singleton]; auto.
Qed.




(** The selection outlives a render: B selects two cards while the black
    card asks for two, a render then asks for one, and the send button
    sends both cards. *)
Lemma picker_selection_outlives_render :
  cardsToPick example_pick_one = 1
  ∧ picker_run (render_picker (Some example_pick_two) None)
      [Pick "b1"; Pick "b2"; Rerender (Some example_pick_one); PressSend]
    = (Some (example_pick_one, []), [playCards example_pick_one ["b1"; "b2"]]).
Proof. split; vm_compute; reflexivity. Qed.




(** ** When the round's cards are shown *)

Lemma filter_complement_length {A} (P : A → Prop) `{∀ x, Decision (P x)}
    (l : list A) :
  length (filter P l) + length (filter (fun x => ¬ P x) l) = length l.
Proof.
  rewrite <- length_app. apply Permutation_length, filter_app_complement.
Qed.

(** X5.  [allCardsSent] holds exactly when one and only one player of the
    game has no card among the round's white cards, whoever that player is;
    in a game without players it does not hold. *)
Theorem allCardsSent_one_missing (v : View) :
  allCardsSent v = true
  ↔ length (filter (fun p => submitted v (player_id p) = false)
                   (game_players (view_game v))) = 1.
Proof.
  unfold allCardsSent, playersReady.
  pose proof (filter_complement_length
                (fun p => submitted v (player_id p) = true)
                (game_players (view_game v))) as Hsum.
  rewrite (list_filter_iff (fun p => submitted v (player_id p) = false)
             (fun p => ¬ submitted v (player_id p) = true)).
  - rewrite Z.eqb_eq. lia.
  - intros p. destruct (submitted v (player_id p)); naive_solver.
Qed.

(** ** The score board *)

Lemma insert_by_points_perm (p : Player) (sorted : list Player) :
  insert_by_points p sorted ≡ₚ p :: sorted.
Proof.
  induction sorted as [|q rest IH]; simpl; [done|].
  case_match; [done|]. rewrite IH. apply Permutation_swap.
Qed.

Lemma insert_by_points_sorted (p : Player) (sorted : list Player) :
  StronglySorted by_points_desc sorted →
  StronglySorted by_points_desc (insert_by_points p sorted).
Proof.
  induction 1 as [|q rest Hrest IH Hq]; simpl.
  - repeat constructor.
  - destruct (Nat.ltb_spec (player_points q) (player_points p)) as [Hlt|Hge].
    + constructor; [by constructor|].
      constructor; [unfold by_points_desc; lia|].
      eapply Forall_impl; [exact Hq|]. unfold by_points_desc. intros; lia.
    + constructor; [done|].
      rewrite insert_by_points_perm. by constructor.
Qed.

Lemma insert_by_points_stable (k : nat) (p : Player) (sorted : list Player) :
  StronglySorted by_points_desc sorted →
  filter (fun q => player_points q = k) (insert_by_points p sorted)
  = filter (fun q => player_points q = k) sorted
    ++ (if decide (player_points p = k) then [p] else []).
Proof.
  induction 1 as [|q rest Hrest IH Hq]; simpl.
  - rewrite filter_cons, filter_nil. by case_decide.
  - destruct (Nat.ltb_spec (player_points q) (player_points p)) as [Hlt|Hge].
    + rewrite (filter_cons _ p). case_decide as Hp; [|by rewrite app_nil_r].
      rewrite (filter_none _ (q :: rest)); [done|].
      intros x [->|Hx]%elem_of_cons; [lia|].
      rewrite Forall_forall in Hq. apply Hq in Hx. unfold by_points_desc in Hx. lia.
    + rewrite !(filter_cons _ q), IH.
      destruct (decide (player_points q = k)); reflexivity.
Qed.

Lemma sort_by_points_snoc (players : list Player) (p : Player) :
  sort_by_points (players ++ [p]) = insert_by_points p (sort_by_points players).
Proof. unfold sort_by_points. by rewrite foldl_app. Qed.

Lemma sort_by_points_spec (players : list Player) :
  sort_by_points players ≡ₚ players
  ∧ StronglySorted by_points_desc (sort_by_points players)
  ∧ ∀ k, filter (fun q => player_points q = k) (sort_by_points players)
         = filter (fun q => player_points q = k) players.
Proof.
  induction players as [|p players (Hperm & Hsorted & Hstable)] using rev_ind.
  - split; [done|]. split; [constructor|done].
  - rewrite sort_by_points_snoc. split; [|split].
    + rewrite insert_by_points_perm, Hperm. apply Permutation_cons_append.
    + by apply insert_by_points_sorted.
    + intros k. rewrite insert_by_points_stable by done.
      rewrite Hstable, filter_app, filter_cons, filter_nil. by case_decide.
Qed.

(** X6.  The score board of [GameOverModal] is shown when the game is
    finished and lists every player of the game once, from the highest
    score to the lowest, players with equal scores in the order they have
    in the game. *)
Theorem GameOverModal_score_board (game : Game) :
  go_show (GameOverModal game) = game_finished game
  ∧ ∃ sorted,
      go_lines (GameOverModal game)
      = map (fun p => mkScoreLine (player_id p) (player_name p) (player_points p))
            sorted
      ∧ sorted ≡ₚ game_players game
      ∧ StronglySorted by_points_desc sorted
      ∧ ∀ k, filter (fun q => player_points q = k) sorted
             = filter (fun q => player_points q = k) (game_players game).
Proof.
  split; [reflexivity|]. exists (sort_by_points (game_players game)).
  split; [reflexivity|]. apply sort_by_points_spec.
Qed.

(** ** The round modal *)

(** X7.  [RoundModal] shows the last finished round: its black card, and
    the decoded text of every one of its white cards in order, whether the
    card's [hidden] flag was ever cleared or not; the title names the first
    player whose id is the stored winner and reads "undefined" when no
    player has it.  For a game without a finished round it shows an empty
    black card, no white card and the title with "undefined". *)
Theorem RoundModal_shows_last_round (decodeHtml : string → string)
    (show : bool) (id : string) (players : list Player) (round : OpenRound)
    (finished : bool) (deck : Deck) :
  RoundModal decodeHtml show (mkGame id players round [] finished deck)
  = mkRoundModalView show "Ganador de la ronda: undefined" (decodeHtml "")
                     None []
  ∧ ∀ (older : list FinishedRound) (r : FinishedRound),
      RoundModal decodeHtml show
                 (mkGame id players round (older ++ [r]) finished deck)
      = mkRoundModalView show
          ("Ganador de la ronda: "
           +:+ match List.find
                       (fun p => String.eqb (player_id p) (round_winner r))
                       players with
               | Some p => player_name p
               | None => "undefined"
               end)
          (decodeHtml (black_text (round_blackCard r)))
          (Some (black_pick (round_blackCard r)))
          (map (fun c => decodeHtml (wc_card c)) (round_whiteCards r)).
Proof.
  split; [reflexivity|]. intros older r. unfold RoundModal.
  rewrite getLastFinishedRound_unfold. cbn [game_finishedRounds game_players].
  rewrite last_snoc. reflexivity.
Qed.

(** * Further properties of the dispatcher *)

Section DispatcherFacts.
Context {ops : GameClass.Ops}.
Variable socket_id : string.

(** X8.  A command that fails changes nothing that others can see: the
    only event it adds is the private ['error'] to its sender, no timer is
    scheduled and the store's index is as before. *)
Theorem failed_command_stays_private (key : string) (data : Data)
    (listener : Data → Io unit) (w w' : World) (err : string) :
  listener_of socket_id key = Some listener →
  listener data w = (Throw err, w') →
  w_log (receive socket_id (key, data) w)
  = w_log w ++ [mkEmitted (w_now w) (ToSocket socket_id) "error"
                          (PText (error_text key err))]
  ∧ w_timers (receive socket_id (key, data) w) = w_timers w
  ∧ w_db (receive socket_id (key, data) w) = w_db w.
Proof.
  intros Hl Hrun.
  destruct (listener_throw_silent socket_id key listener data w w' err Hl Hrun)
    as (Hlog & Hnow & _ & Hdb & Htimers).
  unfold receive, handleMessage. cbn [fst snd]. rewrite Hl, Hrun. simpl.
  by rewrite Hlog, Hnow, Hdb, Htimers.
Qed.

(** X9.  A join subscribes the connection to the room of the game it
    names before anything is looked up: whether the game exists or not and
    whether [addPlayer] accepts the player or not, the connection is in the
    room afterwards (and every subscription there was is kept). *)
Theorem join_subscribes_first (fields : list (string * Val)) (w : World) :
  w_rooms (receive socket_id ("game:join", DObj fields) w)
  = {[ (room_of (get_field "gameId" fields), socket_id) ]} ∪ w_rooms w.
Proof.
  unfold receive, handleMessage. cbn [fst snd].
  change (listener_of socket_id "game:join") with (Some (on_join socket_id)).
  unfold on_join, field, join_body, db_getGame, invoke, socket_join, emit,
    mbind, Io_bind, mret, Io_ret.
  repeat (case_match; simplify_eq/=); reflexivity.
Qed.

End DispatcherFacts.

Section RoomFacts.
Context {ops : GameClass.Ops}.

Lemma receive_rooms (socket_id : string) (msg : string * Data) (w : World)
    (x : string * string) :
  x ∈ w_rooms w → x ∈ w_rooms (receive socket_id msg w).
Proof.
  intros Hx. unfold receive, handleMessage, listener_of.
  repeat case_match; simplify_eq/=; try done;
    unfold on_join, on_leave, on_start, on_play_white_cards,
      on_discard_white_card, on_reveal_card, on_finish_round,
      join_body, leave_body, play_white_cards_body, discard_white_card_body,
      reveal_card_body, finish_round_body, field, db_getGame, invoke,
      mbind, Io_bind, mret, Io_ret, throw, emit, setTimeout, socket_join,
      db_removeGame in *;
    repeat (case_match; simplify_eq/=); try done;
    apply elem_of_union; by right.
Qed.

Lemma fire_all_rooms (xs : list Timer) (w : World) :
  w_rooms (foldl (fun w tm => fire tm w) w xs) = w_rooms w.
Proof.
  revert w. induction xs as [|x xs IH]; intros w; [done|].
  simpl. rewrite IH. unfold fire, on_timeout.
  destruct (timer_task x) as [room ref]. simpl.
  by destruct (w_heap w !! ref).
Qed.

Lemma advance_rooms (t : nat) (w : World) : w_rooms (advance t w) = w_rooms w.
Proof. unfold advance. simpl. by rewrite fire_all_rooms. Qed.

(** X10.  Nothing ever takes a connection out of a room: a connection
    that is in a room stays in it through every run of messages and
    timers, also after a leave by its player (the leave listener removes
    the player from the game and does not unsubscribe the connection). *)
Theorem subscriptions_are_never_dropped (steps : list Step) (w : World)
    (room socket_id : string) :
  (room, socket_id) ∈ w_rooms w →
  (room, socket_id) ∈ w_rooms (run steps w).
Proof.
  revert w. induction steps as [|s steps IH]; intros w Hin; [done|].
  change (run (s :: steps) w) with (run steps (step s w)). apply IH.
  destruct s as [sid msg|t]; cbn [step].
  - by apply receive_rooms.
  - by rewrite advance_rooms.
Qed.

End RoomFacts.

(** The theorem at the run in which A, B and C leave: A's connection is
    still in the room. *)
Lemma subscriptions_are_never_dropped_witness :
  ("game-g1", "A") ∈ w_rooms Example.world4.
Proof.
  apply (subscriptions_are_never_dropped (ops := SpecGame.ops)
           Example.everybody_leaves Example.world3 "game-g1" "A").
  apply (bool_decide_unpack _). vm_compute. exact I.
Defined.


Section TargetFacts.
Context {ops : GameClass.Ops}.

Lemma receive_events (socket_id key : string) (data : Data) (w : World) :
  ∃ l, w_log (receive socket_id (key, data) w) = w_log w ++ l
       ∧ Forall (fun e =>
                   (em_target e = ToSocket socket_id ∧ em_event e = "error")
                   ∨ (em_target e = ToRoom (room_of (named_game data))
                      ∧ (em_event e = "game:edit" ∨ em_event e = "game:kick"
                         ∨ em_event e = "game:cards-played"))) l.
Proof.
  unfold receive, handleMessage, listener_of. cbn [fst snd].
  repeat case_match; simplify_eq/=;
    try (exists []; split; [by rewrite app_nil_r|apply List.Forall_nil]);
    unfold on_join, on_leave, on_start, on_play_white_cards,
      on_discard_white_card, on_reveal_card, on_finish_round,
      join_body, leave_body, play_white_cards_body, discard_white_card_body,
      reveal_card_body, finish_round_body, field, db_getGame, invoke,
      mbind, Io_bind, mret, Io_ret, throw, emit, setTimeout, socket_join,
      db_removeGame in *;
    repeat (case_match; simplify_eq/=);
    rewrite <- ?app_assoc; simpl;
    (eexists; split; [reflexivity|]);
    repeat match goal with
           | H : get_field _ _ = _ |- _ => try rewrite H; clear H
           end;
    repeat match goal with
           | |- Forall _ (_ :: _) => apply List.Forall_cons
           | |- Forall _ [] => apply List.Forall_nil
           end;
    first [left; split; reflexivity|right; split; [reflexivity|auto]].
Qed.

(** X11.  Every event that a message for one of the seven game
    listeners (join, leave, start, play, discard, reveal, finish) makes the
    dispatcher emit at once is addressed either to the sender alone, and
    then it is the ['error'], or to the room of the game the message names,
    and then it is one of ['game:edit'], ['game:kick'] and
    ['game:cards-played']: a game command never writes to another
    connection or to the room of another game. *)
Theorem events_go_to_sender_or_named_room (socket_id key : string)
    (listener : Data → Io unit) (data : Data) (w : World) (e : Emitted) :
  listener_of socket_id key = Some listener →
  e ∈ drop (length (w_log w)) (w_log (receive socket_id (key, data) w)) →
  (em_target e = ToSocket socket_id ∧ em_event e = "error")
  ∨ (em_target e = ToRoom (room_of (named_game data))
     ∧ (em_event e = "game:edit" ∨ em_event e = "game:kick"
        ∨ em_event e = "game:cards-played")).
Proof.
  intros _.
  destruct (receive_events socket_id key data w) as (l & -> & Hl).
  rewrite drop_app_length. intros He.
  rewrite Forall_forall in Hl. by apply Hl.
Qed.

End TargetFacts.

(** The theorem at the ['game:edit'] that B's submission makes the
    dispatcher emit. *)
Lemma events_go_to_sender_or_named_room_witness :
  (ToRoom "game-g1" = ToSocket "B" ∧ "game:edit" = "error")
  ∨ (ToRoom "game-g1" = ToRoom (room_of (named_game (Example.play "B" "b1").2))
     ∧ ("game:edit" = "game:edit" ∨ "game:edit" = "game:kick"
        ∨ "game:edit" = "game:cards-played")).
Proof.
  apply (events_go_to_sender_or_named_room (ops := SpecGame.ops)
           "B" "game:play-white-cards" (@on_play_white_cards SpecGame.ops)
           (Example.play "B" "b1").2 Example.world1
           (mkEmitted 0 (ToRoom "game-g1") "game:edit"
                      (PGame (Example.game_in Example.world2)))).
  - reflexivity.
  - vm_compute. apply list_elem_of_here.
Defined.

(** ** From the judge's screen to the dispatcher *)

Section JudgeFacts.
Context {ops : GameClass.Ops}.
Variable socket_id : string.

Lemma reveal_card_run (fields : list (string * Val)) (id : string)
    (ref : nat) (g g' : Game) (w : World) :
  get_field "gameId" fields = VStr id →
  w_db w !! id = Some ref →
  w_heap w !! ref = Some g →
  GameClass.revealCard g (get_field "playerId" fields) = Ok g' →
  receive socket_id ("game:reveal-card", DObj fields) w
  = mkWorld (w_now w) (w_db w) (<[ref := g']> (w_heap w)) (w_rooms w)
      (w_log w
       ++ [mkEmitted (w_now w) (ToRoom (room_of (VStr id))) "game:edit" (PGame g')])
      (w_timers w).
Proof.
  intros Hid Hdb Hheap Hreveal.
  unfold receive, handleMessage. cbn [fst snd].
  change (listener_of socket_id "game:reveal-card") with (Some on_reveal_card).
  unfold on_reveal_card, field, reveal_card_body, db_getGame, invoke,
    mbind, Io_bind, mret, Io_ret.
  rewrite Hid. cbn [w_db]. rewrite Hdb. cbn [w_heap]. rewrite Hheap, Hreveal.
  reflexivity.
Qed.

(** X14.  When the judge clicks a hidden card of the round, the view
    sends a reveal request that the dispatcher understands: [revealCard] is
    called on the game the judge is looking at, for the player of the card
    clicked, and when it succeeds the new state goes to the game's room as
    one ['game:edit']. *)
Theorem judge_click_reveals (v : View) (c : WhiteCard) (ref : nat)
    (g g' : Game) (w : World) :
  playerIsHost v = true →
  wc_hidden c = true →
  w_db w !! game_id (view_game v) = Some ref →
  w_heap w !! ref = Some g →
  GameClass.revealCard g (VStr (wc_player c)) = Ok g' →
  ∃ msg,
    onRoundWhiteCardClick v c = Emit msg
    ∧ receive socket_id msg w
      = mkWorld (w_now w) (w_db w) (<[ref := g']> (w_heap w)) (w_rooms w)
          (w_log w
           ++ [mkEmitted (w_now w)
                         (ToRoom (room_of (VStr (game_id (view_game v)))))
                         "game:edit" (PGame g')])
          (w_timers w).
Proof.
  intros Hhost Hhidden Hdb Hheap Hreveal.
  unfold onRoundWhiteCardClick. rewrite Hhost, Hhidden. simpl.
  eexists. split; [reflexivity|].
  by eapply reveal_card_run.
Qed.

(** X15.  When the judge clicks a revealed card, its player becomes the
    chosen winner, and the finish-round message of a view with that choice
    is one the dispatcher understands: [finishRound] is called on the game
    the judge is looking at with that player's id, the new state goes to
    the room as ['game:edit'] and the announcement is scheduled 500 ms
    ahead. *)
Theorem judge_pick_finishes_round (v : View) (c : WhiteCard) (ref : nat)
    (g g' : Game) (w : World) :
  playerIsHost v = true →
  wc_hidden c = false →
  w_db w !! game_id (view_game v) = Some ref →
  w_heap w !! ref = Some g →
  GameClass.finishRound g (VStr (wc_player c)) = Ok g' →
  onRoundWhiteCardClick v c = SetWinner (wc_player c)
  ∧ receive socket_id
      (finishRound (mkView (view_playerId v) (view_game v) (Some (wc_player c))))
      w
    = mkWorld (w_now w) (w_db w) (<[ref := g']> (w_heap w)) (w_rooms w)
        (w_log w
         ++ [mkEmitted (w_now w)
                       (ToRoom (room_of (VStr (game_id (view_game v)))))
                       "game:edit" (PGame g')])
        (enqueue (mkTimer (w_now w + 500)
                    (RoundWinner (room_of (VStr (game_id (view_game v)))) ref))
                 (w_timers w)).
Proof.
  intros Hhost Hhidden Hdb Hheap Hfinish.
  unfold onRoundWhiteCardClick. rewrite Hhost, Hhidden. simpl.
  split; [reflexivity|].
  by eapply finish_round_run.
Qed.

(** X16.  A viewer who is not among the players of the game sends a join
    on render, and only such a viewer does.  The message has the game id
    and the name typed and no [playerId], so the join listener calls
    [addPlayer] with the id [undefined]. *)
Theorem joinOnRender_gives_no_playerId (v : View) (name : Val)
    (msg : string * Data) :
  joinOnRender v name = Some msg →
  playerData v = None
  ∧ listener_of socket_id msg.1 = Some (on_join socket_id)
  ∧ on_join socket_id msg.2
    = join_body socket_id (VStr (game_id (view_game v))) name VUndefined.
Proof.
  unfold joinOnRender. destruct (playerData v); [done|].
  intros [= <-]. repeat split; reflexivity.
Qed.

End JudgeFacts.

(** The theorem at a submission of a card that B does not hold. *)
Lemma failed_command_stays_private_witness :
  w_log (Example.send "B" (Example.play "B" "zz") Example.world1)
  = w_log Example.world1
    ++ [mkEmitted 0 (ToSocket "B") "error"
                  (PText (error_text "game:play-white-cards" "CardNotInHand"))].
Proof.
  apply (failed_command_stays_private (ops := SpecGame.ops) "B"
           "game:play-white-cards" (Example.play "B" "zz").2
           (@on_play_white_cards SpecGame.ops) Example.world1 Example.world1
           "CardNotInHand").
  - reflexivity.
  - vm_compute. reflexivity.
Defined.

(** The theorem at the judge's click on B's hidden card. *)
Lemma judge_click_reveals_witness :
  ∃ msg,
    onRoundWhiteCardClick (Example.view_of "A" Example.world2c)
                          (mkWhiteCard "B" "b1" true) = Emit msg
    ∧ w_log (Example.send "A" msg Example.world2c)
      = w_log Example.world2c
        ++ [mkEmitted 0 (ToRoom "game-g1") "game:edit"
                      (PGame (Example.game_in example_revealed))].
Proof.
  destruct (judge_click_reveals (ops := SpecGame.ops) "A"
              (Example.view_of "A" Example.world2c) (mkWhiteCard "B" "b1" true)
              0 (Example.game_in Example.world2c)
              (Example.game_in example_revealed) Example.world2c)
    as (msg & Hclick & Hrun).
  - vm_compute. reflexivity.
  - reflexivity.
  - vm_compute. reflexivity.
  - vm_compute. reflexivity.
  - vm_compute. reflexivity.
  - exists msg. split; [exact Hclick|exact (f_equal w_log Hrun)].
Defined.

(** The theorem at the judge's click on B's card once it is revealed. *)
Lemma judge_pick_finishes_round_witness :
  onRoundWhiteCardClick (Example.view_of "A" example_revealed)
                        (mkWhiteCard "B" "b1" false) = SetWinner "B"
  ∧ w_timers
      (Example.send "A"
         (finishRound (mkView "A" (Example.game_in example_revealed) (Some "B")))
         example_revealed)
    = [mkTimer 500 (RoundWinner "game-g1" 0)].
Proof.
  destruct (judge_pick_finishes_round (ops := SpecGame.ops) "A"
              (Example.view_of "A" example_revealed) (mkWhiteCard "B" "b1" false)
              0 (Example.game_in example_revealed)
              (Example.game_in
                 (Example.send "A" (Example.finish "B") example_revealed))
              example_revealed)
    as (Hclick & Hrun).
  - vm_compute. reflexivity.
  - reflexivity.
  - vm_compute. reflexivity.
  - vm_compute. reflexivity.
  - vm_compute. reflexivity.
  - split; [exact Hclick|exact (f_equal w_timers Hrun)].
Defined.

(** The theorem at the screen of a viewer who is not in the game. *)
Lemma joinOnRender_gives_no_playerId_witness :
  playerData (Example.view_of "D" Example.world1) = None
  ∧ on_join (ops := SpecGame.ops) "D"
      (DObj [("gameId", VStr "g1"); ("name", VStr "Dee")])
    = join_body (ops := SpecGame.ops) "D" (VStr "g1") (VStr "Dee") VUndefined.
Proof.
  destruct (joinOnRender_gives_no_playerId (ops := SpecGame.ops) "D"
              (Example.view_of "D" Example.world1) (VStr "Dee")
              ("game:join", DObj [("gameId", VStr "g1"); ("name", VStr "Dee")]))
    as (Hnone & _ & Hjoin).
  - vm_compute. reflexivity.
  - split; [exact Hnone|exact Hjoin].
Defined.

Section StoreFacts.
Context {ops : GameClass.Ops}.

(** X17.  A game goes out of the store only through a leave that leaves
    it without players: if a message makes the store forget a game id, the
    message is a ['game:leave'] naming that game, and the state it
    broadcast to the room is a game of that id with an empty player
    list. *)
Theorem game_removed_only_when_empty (socket_id key : string) (data : Data)
    (w : World) (id : string) (ref : nat) :
  w_db w !! id = Some ref →
  w_db (receive socket_id (key, data) w) !! id = None →
  key = "game:leave"
  ∧ ∃ g, game_id g = id ∧ game_players g = []
         ∧ mkEmitted (w_now w) (ToRoom (room_of (named_game data))) "game:edit"
                     (PGame g)
           ∈ w_log (receive socket_id (key, data) w).
Proof.
  intros Hdb. unfold receive, handleMessage, listener_of. cbn [fst snd].
  repeat case_match; simplify_eq/=; try congruence;
    unfold on_join, on_leave, on_start, on_play_white_cards,
      on_discard_white_card, on_reveal_card, on_finish_round,
      join_body, leave_body, play_white_cards_body, discard_white_card_body,
      reveal_card_body, finish_round_body, field, db_getGame, invoke,
      mbind, Io_bind, mret, Io_ret, throw, emit, setTimeout, socket_join,
      db_removeGame in *;
    repeat (case_match; simplify_eq/=); try congruence.
  intros Hgone.
  match goal with H : String.eqb key _ = true |- _ => apply String.eqb_eq in H end.
  split; [done|].
  match goal with
  | |- context [PGame ?g'] =>
      exists g'; destruct (decide (game_id g' = id)) as [Hid|Hid];
        [|rewrite lookup_delete_ne in Hgone by done; congruence]
  end.
  split; [done|]. split; [by apply nil_length_inv|].
  match goal with H : get_field _ _ = _ |- _ => rewrite H end.
  rewrite <- app_assoc. apply elem_of_app. right. apply list_elem_of_here.
Qed.

(** X18.  A message changes no game object but the one filed under the
    id it names: every other object of the heap is after the message what
    it was before. *)
Theorem other_games_untouched (socket_id key : string) (data : Data)
    (w : World) (other : nat) :
  (∀ id, named_game data = VStr id → w_db w !! id ≠ Some other) →
  w_heap (receive socket_id (key, data) w) !! other = w_heap w !! other.
Proof.
  intros Hother. unfold receive, handleMessage, listener_of. cbn [fst snd].
  repeat case_match; simplify_eq/=; try done;
    unfold on_join, on_leave, on_start, on_play_white_cards,
      on_discard_white_card, on_reveal_card, on_finish_round,
      join_body, leave_body, play_white_cards_body, discard_white_card_body,
      reveal_card_body, finish_round_body, field, db_getGame, invoke,
      mbind, Io_bind, mret, Io_ret, throw, emit, setTimeout, socket_join,
      db_removeGame in *;
    repeat (case_match; simplify_eq/=); try done;
    apply list_lookup_insert_ne; intros ->; by eapply Hother.
Qed.

End StoreFacts.

(** The theorem at the leave of the last player. *)
Lemma game_removed_only_when_empty_witness :
  "game:leave" = "game:leave"
  ∧ ∃ g, game_id g = "g1" ∧ game_players g = []
         ∧ mkEmitted 100 (ToRoom "game-g1") "game:edit" (PGame g)
           ∈ w_log (Example.send "C" (Example.leave "C") example_last).
Proof.
  apply (game_removed_only_when_empty (ops := SpecGame.ops) "C" "game:leave"
           (Example.leave "C").2 example_last "g1" 0).
  - vm_compute. reflexivity.
  - vm_compute. reflexivity.
Defined.

(** The theorem at B's submission in the first of two games: the second
    game is as it was. *)
Lemma other_games_untouched_witness :
  w_heap (Example.send "B" (Example.play "B" "b1") example_two_games) !! 1
  = Some game2.
Proof.
  apply (other_games_untouched (ops := SpecGame.ops) "B" "game:play-white-cards"
           (Example.play "B" "b1").2 example_two_games 1).
  intros id [= <-]. vm_compute. discriminate.
Defined.

(** ** The effect hook's socket listeners *)

Lemma listeners_of_on (event e : string) (listeners : list string) :
  listeners_of event (socket_on e listeners)
  = listeners_of event listeners + (if decide (e = event) then 1 else 0).
Proof.
  unfold listeners_of, socket_on.
  rewrite filter_app, length_app, filter_cons, filter_nil.
  by case_decide.
Qed.

Lemma listeners_of_off_same (event : string) (listeners : list string) :
  listeners_of event (socket_off event listeners) = 0.
Proof.
  unfold listeners_of, socket_off. rewrite filter_none; [done|].
  intros x [Hx _]%list_elem_of_filter. done.
Qed.

Lemma listeners_of_off_other (event e : string) (listeners : list string) :
  e ≠ event →
  listeners_of event (socket_off e listeners) = listeners_of event listeners.
Proof.
  intros Hne. unfold listeners_of, socket_off. f_equal.
  induction listeners as [|x l IH]; [done|].
  rewrite (filter_cons (fun e0 => e0 ≠ e)). case_decide as Hx.
  - rewrite !(filter_cons (fun e0 => e0 = event)). case_decide; by rewrite IH.
  - rewrite IH. rewrite (filter_cons_False (fun e0 => e0 = event)); [done|].
    intros ->. apply Hne. by symmetry.
Qed.

Lemma after_renders_listeners (rs : list Render) (prev : option Render)
    (listeners : list string) :
  (listeners_of "game:edit" listeners = 0
   ∨ (listeners_of "game:edit" listeners = 1
      ∧ ∃ p, prev = Some p ∧ r_socket p = true)) →
  let '(final, last) := after_renders prev rs listeners in
  listeners_of "game:cards-played" final
  = listeners_of "game:cards-played" listeners + ready_renders rs
  ∧ listeners_of "game:round-winner" final
    = listeners_of "game:round-winner" listeners + ready_renders rs
  ∧ (listeners_of "game:edit" final = 0
     ∨ (listeners_of "game:edit" final = 1
        ∧ ∃ p, last = Some p ∧ r_socket p = true)).
Proof.
  revert prev listeners. induction rs as [|r rs IH]; intros prev listeners Hedit.
  { simpl. unfold ready_renders. simpl. split; [lia|]. split; [lia|done]. }
  cbn [after_renders].
  set (cleaned := match prev with
                  | Some p => cleanup p listeners
                  | None => listeners
                  end).
  assert (listeners_of "game:edit" cleaned = 0
          ∧ listeners_of "game:cards-played" cleaned
            = listeners_of "game:cards-played" listeners
          ∧ listeners_of "game:round-winner" cleaned
            = listeners_of "game:round-winner" listeners) as (Hc1 & Hc2 & Hc3).
  { subst cleaned. destruct Hedit as [H0|(H1 & p & -> & Hp)].
    - destruct prev as [p|]; [|done]. unfold cleanup.
      destruct (r_socket p); [|done].
      rewrite listeners_of_off_same, !listeners_of_off_other by done. done.
    - unfold cleanup. rewrite Hp.
      rewrite listeners_of_off_same, !listeners_of_off_other by done. done. }
  specialize (IH (Some r) (effect r cleaned)).
  destruct (after_renders (Some r) rs (effect r cleaned)) as [final last].
  unfold ready_renders. rewrite filter_cons. fold (ready_renders rs).
  unfold effect in *. destruct (r_socket r) eqn:Hs, (r_game r) eqn:Hg; simpl in *.
  - try (rewrite decide_True by done); simpl.
    rewrite !listeners_of_on in IH. repeat case_decide; try done.
    destruct IH as (Ha & Hb & Hc); [right; split; [lia|eauto]|].
    unfold ready_renders in *. split; [lia|]. split; [lia|done].
  - try (rewrite decide_False by done); simpl.
    destruct IH as (H1 & H2 & H3); [by left|].
    unfold ready_renders in *. split; [lia|]. split; [lia|done].
  - try (rewrite decide_False by done); simpl.
    destruct IH as (H1 & H2 & H3); [by left|].
    unfold ready_renders in *. split; [lia|]. split; [lia|done].
  - try (rewrite decide_False by done); simpl.
    destruct IH as (H1 & H2 & H3); [by left|].
    unfold ready_renders in *. split; [lia|]. split; [lia|done].
Qed.

(** X19.  The effect hook leaks listeners.  After any sequence of renders
    the socket has at most one ['game:edit'] listener, but one
    ['game:cards-played'] and one ['game:round-winner'] listener for every
    render that found socket and game in place; unmounting takes away the
    ['game:edit'] listener and leaves all the others. *)
Theorem effect_hook_listeners (rs : list Render) :
  listeners_of "game:edit" (after_renders None rs []).1 ≤ 1
  ∧ listeners_of "game:cards-played" (after_renders None rs []).1
    = ready_renders rs
  ∧ listeners_of "game:round-winner" (after_renders None rs []).1
    = ready_renders rs
  ∧ listeners_of "game:edit" (after_unmount rs) = 0
  ∧ listeners_of "game:cards-played" (after_unmount rs) = ready_renders rs
  ∧ listeners_of "game:round-winner" (after_unmount rs) = ready_renders rs.
Proof.
  pose proof (after_renders_listeners rs None [] (or_introl eq_refl)) as H.
  unfold after_unmount.
  destruct (after_renders None rs []) as [final last].
  destruct H as (H1 & H2 & H3). simpl in *.
  split; [destruct H3 as [->|[-> _]]; lia|]. split; [done|]. split; [done|].
  destruct H3 as [H0|(Hone & p & -> & Hp)].
  - destruct last as [p|]; [|done]. unfold cleanup. destruct (r_socket p); [|done].
    by rewrite listeners_of_off_same, !listeners_of_off_other.
  - unfold cleanup. rewrite Hp.
    by rewrite listeners_of_off_same, !listeners_of_off_other.
Qed.

(** The theorem at B's submission of "b1". *)
Lemma play_white_cards_run_witness :
  w_log Example.world2
  = w_log Example.world1
    ++ [mkEmitted 0 (ToRoom "game-g1") "game:edit"
                  (PGame (Example.game_in Example.world2));
        mkEmitted 0 (ToRoom "game-g1") "game:cards-played" (PVal (VCards ["b1"]))].
Proof.
  refine (f_equal w_log
            (play_white_cards_run (ops := SpecGame.ops) "B"
               [("gameId", VStr "g1"); ("cards", VCards ["b1"]);
                ("playerId", VStr "B")]
               "g1" 0 Example.game1 (Example.game_in Example.world2)
               Example.world1 _ _ _ _)); vm_compute; reflexivity.
Defined.

(** The theorem at the leave of the last player: the game is out of the
    store. *)
Lemma leave_run_witness :
  w_db (Example.send "C" (Example.leave "C") example_last)
  = delete "g1" (w_db example_last).
Proof.
  refine (f_equal w_db
            (leave_run (ops := SpecGame.ops) "C"
               [("gameId", VStr "g1"); ("playerId", VStr "C")]
               "g1" 0 (Example.game_in example_last)
               (Example.game_in
                  (Example.send "C" (Example.leave "C") example_last))
               example_last _ _ _ _)); vm_compute; reflexivity.
Defined.
